(** * GenericGraph: a shallow embedding of [revng/ADT/GenericGraph.h]

    The header defines three node flavours ([ForwardNode],
    [BidirectionalNode], [MutableEdgeNode]) and the owning container
    [GenericGraph].  Nodes refer to each other through raw pointers, so the
    embedding keeps an explicit store: node addresses are natural numbers,
    a pointer dereference is a lookup in a finite map, and every method
    receives the address of the object it is invoked on ([this]).

    Iterators into a [SmallVector] are modelled by their offset from
    [begin()]; [end()] is the length of the vector.  The payload of a
    node (its [Node] base class) takes no part in the operations below
    and is left out. *)

From stdpp Require Import base option list gmap strings.
From Stdlib Require Import Ascii.
From Stdlib Require DecimalString.

Set Default Proof Using "Type".

(** ** Outcomes of a call *)

(** A call either returns a value in a new store, or dies in
    [revng_assert]/[revng_abort] (the store is the one the process had
    when it died), or steps outside of what C++ defines (dereferencing
    [end()] or a dangling pointer), or is still looping when the fuel of
    the model runs out. *)
Inductive outcome (Σ A : Type) : Type :=
  | Returns (a : A) (s : Σ)
  | Aborts (msg : string) (s : Σ)
  | Undefined
  | OutOfFuel.
Arguments Returns {Σ A} a s.
Arguments Aborts {Σ A} msg s.
Arguments Undefined {Σ A}.
Arguments OutOfFuel {Σ A}.

(** A state-and-failure monad over the store [Σ]. *)
Definition M (Σ A : Type) : Type := Σ → outcome Σ A.

Definition ret {Σ A} (a : A) : M Σ A := λ s, Returns a s.
Definition bind {Σ A B} (c : M Σ A) (k : A → M Σ B) : M Σ B := λ s,
  match c s with
  | Returns a s' => k a s'
  | Aborts msg s' => Aborts msg s'
  | Undefined => Undefined
  | OutOfFuel => OutOfFuel
  end.
Definition revng_abort {Σ A} (msg : string) : M Σ A := λ s, Aborts msg s.
Definition undefined {Σ A} : M Σ A := λ _, Undefined.
Definition out_of_fuel {Σ A} : M Σ A := λ _, OutOfFuel.

#[global] Instance M_ret {Σ} : MRet (M Σ) := @ret Σ.
#[global] Instance M_bind {Σ} : MBind (M Σ) := λ A B k c, bind c k.

(** Modelled from the spec: the macro [revng_assert] lives in
    [revng/Support/Assert.h], which is not among the sources; the spec
    describes it as a fatal abort with a message, active in every build. *)
Definition revng_assert {Σ} (cond : bool) (msg : string) : M Σ unit :=
  if cond then ret tt else revng_abort msg.

(** Node addresses, label addresses and iterator offsets. *)
Abbreviation addr := nat (only parsing).
Abbreviation loc := nat (only parsing).

(** [std::find_if] over a vector: the offset of the first element that
    satisfies [P], or the length of the vector ([end()]) when none does. *)
Fixpoint find_if {A : Type} (P : A → bool) (l : list A) : nat :=
  match l with
  | [] => 0
  | x :: l' => if P x then 0 else S (find_if P l')
  end.

(** [std::swap] of the element under [It] with [V.back()]. *)
Definition swap_with_back {A : Type} (It : nat) (l : list A) : list A :=
  match l !! It, last l with
  | Some x, Some y => <[length l - 1 := x]> (<[It := y]> l)
  | _, _ => l
  end.

(** [V.pop_back()]. *)
Definition pop_back {A : Type} (l : list A) : list A :=
  take (length l - 1) l.

(** [V.erase(It)] for a dereferenceable [It]: later elements shift down. *)
Definition erase {A : Type} (It : nat) (l : list A) : list A :=
  delete It l.

(** [V.emplace_back(x)]. *)
Definition emplace_back {A : Type} (x : A) (l : list A) : list A := l ++ [x].

(** Dereferencing an iterator: [end()] and beyond are not
    dereferenceable. *)
Definition deref {Σ A} (l : list A) (It : nat) : M Σ A :=
  match l !! It with
  | Some x => ret x
  | None => undefined
  end.

(** ** ForwardNode and BidirectionalNode *)

Module Bidirectional.
Section BidirectionalNode.

Context {EdgeLabel : Type}.
(** The value of a default-initialised [EdgeLabel], used by the
    overloads that take no label. *)
Variable default_label : EdgeLabel.

(** [struct Edge : EdgeLabel]: the neighbour pointer next to a label
    stored by value. *)
Record Edge : Type := mkEdge {
  Neighbor : addr;
  Label : EdgeLabel
}.

(** [BidirectionalNode] on top of [ForwardNode]: the [Successors] of
    the base class and the [Predecessors] added by the derived one. *)
Record BidirectionalNode : Type := mkNode {
  Successors : list Edge;
  Predecessors : list Edge
}.

#[local] Abbreviation memory := (gmap addr BidirectionalNode).
#[local] Abbreviation M := (M memory).

Definition load (p : addr) : M BidirectionalNode := λ s,
  match s !! p with
  | Some n => Returns n s
  | None => Undefined
  end.

Definition store (p : addr) (n : BidirectionalNode) : M unit := λ s,
  Returns tt (<[p := n]> s).

Definition updSuccessors (p : addr) (f : list Edge → list Edge) : M unit :=
  n ← load p ; store p (mkNode (f (Successors n)) (Predecessors n)).

Definition updPredecessors (p : addr) (f : list Edge → list Edge) : M unit :=
  n ← load p ; store p (mkNode (Successors n) (f (Predecessors n))).

(** [ForwardNode::addSuccessor], both overloads. *)
Definition Forward_addSuccessor0 (this NewSuccessor : addr) : M unit :=
  updSuccessors this (emplace_back (mkEdge NewSuccessor default_label)).

Definition Forward_addSuccessor (this NewSuccessor : addr) (EL : EdgeLabel)
  : M unit :=
  updSuccessors this (emplace_back (mkEdge NewSuccessor EL)).

(** [ForwardNode::removeSuccessor], inherited unchanged.
    [SmallVector::erase] needs a dereferenceable iterator and returns
    the same position. *)
Definition removeSuccessor (this : addr) (It : nat) : M nat :=
  n ← load this ;
  if bool_decide (It < length (Successors n)) then
    updSuccessors this (erase It) ;;
    ret It
  else undefined.

Definition successorCount (this : addr) : M nat :=
  n ← load this ; ret (length (Successors n)).

(** [BidirectionalNode::addSuccessor], both overloads. *)
Definition addSuccessor0 (this NewSuccessor : addr) : M unit :=
  Forward_addSuccessor0 this NewSuccessor ;;
  updPredecessors NewSuccessor (emplace_back (mkEdge this default_label)).

Definition addSuccessor (this NewSuccessor : addr) (EL : EdgeLabel) : M unit :=
  Forward_addSuccessor this NewSuccessor EL ;;
  updPredecessors NewSuccessor (emplace_back (mkEdge this EL)).

(** [BidirectionalNode::addPredecessor], both overloads.  The call on
    [NewPredecessor] goes through a [BidirectionalNode] pointer, hence
    to [BidirectionalNode::addSuccessor]. *)
Definition addPredecessor0 (this NewPredecessor : addr) : M unit :=
  updPredecessors this (emplace_back (mkEdge NewPredecessor default_label)) ;;
  addSuccessor0 NewPredecessor this.

Definition addPredecessor (this NewPredecessor : addr) (EL : EdgeLabel)
  : M unit :=
  updPredecessors this (emplace_back (mkEdge NewPredecessor EL)) ;;
  addSuccessor NewPredecessor this EL.

(** [BidirectionalNode::removePredecessor]. *)
Definition removePredecessor (this : addr) (It : nat) : M nat :=
  n ← load this ;
  if bool_decide (It < length (Predecessors n)) then
    updPredecessors this (erase It) ;;
    ret It
  else undefined.

Definition predecessorCount (this : addr) : M nat :=
  n ← load this ; ret (length (Predecessors n)).

End BidirectionalNode.
End Bidirectional.

(** ** MutableEdgeNode *)

Module MutableEdge.
Section MutableEdgeNode.

(** Template parameters: the label type, [AreEdgesLabeled]
    ([EdgeLabel] is not [Empty]) and [HasParent]. *)
Context {EdgeLabel : Type}.
Variable AreEdgesLabeled : bool.
Variable HasParent : bool.

(** [detail::OwningEdge]: the successor-side record.  [Label] is the
    [unique_ptr] to the heap-allocated label; the [Unlabeled] variant,
    chosen when [AreEdgesLabeled] is false, has no label ([None]). *)
Record OwningEdge : Type := mkOwningEdge {
  ONeighbor : addr;
  OLabel : option loc
}.

(** [detail::NonOwningEdge]: the predecessor-side record, with a plain
    pointer to the label owned by the other half. *)
Record NonOwningEdge : Type := mkNonOwningEdge {
  VNeighbor : addr;
  VLabel : option loc
}.

(** [detail::EdgeView] / [detail::UnlabeledView]: references to the
    neighbour and to the label. *)
Record EdgeView : Type := mkEdgeView {
  EVNeighbor : addr;
  EVLabel : option loc
}.

Record MutableEdgeNode : Type := mkNode {
  TheParent : option addr;
  Successors : list OwningEdge;
  Predecessors : list NonOwningEdge
}.

(** The store: node objects and label allocations. *)
Record memory : Type := mkMemory {
  nodes : gmap addr MutableEdgeNode;
  labels : gmap loc EdgeLabel
}.

#[local] Abbreviation M := (M memory).

(** Dereferencing a node pointer. *)
Definition load (p : addr) : M MutableEdgeNode := λ s,
  match nodes s !! p with
  | Some n => Returns n s
  | None => Undefined
  end.

Definition store (p : addr) (n : MutableEdgeNode) : M unit := λ s,
  Returns tt (mkMemory (<[p := n]> (nodes s)) (labels s)).

(** In-place updates of the two vectors of the node at [p]. *)
Definition updSuccessors (p : addr)
    (f : list OwningEdge → list OwningEdge) : M unit :=
  n ← load p ; store p (mkNode (TheParent n) (f (Successors n)) (Predecessors n)).

Definition updPredecessors (p : addr)
    (f : list NonOwningEdge → list NonOwningEdge) : M unit :=
  n ← load p ; store p (mkNode (TheParent n) (Successors n) (f (Predecessors n))).

(** [std::make_unique<EdgeLabel>]: a fresh allocation. *)
Definition make_unique (EL : EdgeLabel) : M loc := λ s,
  let l := fresh (dom (labels s)) in
  Returns l (mkMemory (nodes s) (<[l := EL]> (labels s))).

(** The destructor of an [OwningEdge]: releases the label it owns. *)
Definition destroy (e : OwningEdge) : M unit := λ s,
  match OLabel e with
  | Some l => Returns tt (mkMemory (nodes s) (delete l (labels s)))
  | None => Returns tt s
  end.

(** [findSuccessorImpl] / [findPredecessorImpl]. *)
Definition findSuccessorImpl (n : MutableEdgeNode) (S : addr) : nat :=
  find_if (λ Edge, bool_decide (ONeighbor Edge = S)) (Successors n).

Definition findPredecessorImpl (n : MutableEdgeNode) (P : addr) : nat :=
  find_if (λ Edge, bool_decide (VNeighbor Edge = P)) (Predecessors n).

Definition hasSuccessor (this S : addr) : M bool :=
  n ← load this ;
  ret (negb (bool_decide (findSuccessorImpl n S = length (Successors n)))).

Definition hasPredecessor (this S : addr) : M bool :=
  n ← load this ;
  ret (negb (bool_decide (findPredecessorImpl n S = length (Predecessors n)))).

Definition successorCount (this : addr) : M nat :=
  n ← load this ; ret (length (Successors n)).
Definition predecessorCount (this : addr) : M nat :=
  n ← load this ; ret (length (Predecessors n)).

Definition hasSuccessors (this : addr) : M bool :=
  n ← load this ; ret (negb (bool_decide (length (Successors n) = 0))).
Definition hasPredecessors (this : addr) : M bool :=
  n ← load this ; ret (negb (bool_decide (length (Predecessors n) = 0))).

(** [constructEdge]: one allocation, shared by the two halves. *)
Definition constructEdge (From To : addr) (EL : EdgeLabel)
  : M (OwningEdge * NonOwningEdge) :=
  if AreEdgesLabeled then
    l ← make_unique EL ;
    ret (mkOwningEdge To (Some l), mkNonOwningEdge From (Some l))
  else
    ret (mkOwningEdge To None, mkNonOwningEdge From None).

Definition addSuccessor (this NewSuccessor : addr) (EL : EdgeLabel)
  : M EdgeView :=
  dup ← hasSuccessor this NewSuccessor ;
  revng_assert (negb dup) "Only one edge is allowed between two nodes." ;;
  OV ← constructEdge this NewSuccessor EL ;
  updSuccessors this (emplace_back OV.1) ;;
  updPredecessors NewSuccessor (emplace_back OV.2) ;;
  ret (mkEdgeView (ONeighbor OV.1) (OLabel OV.1)).

Definition addPredecessor (this NewPredecessor : addr) (EL : EdgeLabel)
  : M EdgeView :=
  dup ← hasPredecessor this NewPredecessor ;
  revng_assert (negb dup) "Only one edge is allowed between two nodes." ;;
  OV ← constructEdge NewPredecessor this EL ;
  updSuccessors NewPredecessor (emplace_back OV.1) ;;
  updPredecessors this (emplace_back OV.2) ;;
  ret (mkEdgeView (ONeighbor OV.1) (OLabel OV.1)).

(** [removeSuccessorImpl].  [std::advance(begin, distance(begin, It))]
    lands on [It] again, so the offset is used as it comes.  The
    [pop_back] on the owner vector runs the destructor of the record
    that the swap moved to the back. *)
Definition removeSuccessorImpl (this : addr) (InputIterator : nat) : M nat :=
  n ← load this ;
  if bool_decide (Successors n = []) then ret (length (Successors n))
  else
    let Iterator := InputIterator in
    E ← deref (Successors n) Iterator ;
    let Successor := ONeighbor E in
    S ← load Successor ;
    if bool_decide (Predecessors S = []) then ret Iterator
    else
      let PredecessorIt := findPredecessorImpl S this in
      revng_assert
        (negb (bool_decide (PredecessorIt = length (Predecessors S))))
        "Half of an edge is missing, graph layout is broken." ;;
      updPredecessors Successor (λ l, pop_back (swap_with_back PredecessorIt l)) ;;
      updSuccessors this (swap_with_back Iterator) ;;
      destroy E ;;
      updSuccessors this pop_back ;;
      ret Iterator.

(** [removePredecessorImpl]: the mirror image; the record popped from
    the far successor vector owns the label. *)
Definition removePredecessorImpl (this : addr) (InputIterator : nat) : M nat :=
  n ← load this ;
  if bool_decide (Predecessors n = []) then ret (length (Predecessors n))
  else
    let Iterator := InputIterator in
    E ← deref (Predecessors n) Iterator ;
    let Predecessor := VNeighbor E in
    P ← load Predecessor ;
    if bool_decide (Successors P = []) then ret Iterator
    else
      let SuccessorIt := findSuccessorImpl P this in
      revng_assert
        (negb (bool_decide (SuccessorIt = length (Successors P))))
        "Half of an edge is missing, graph layout is broken." ;;
      O ← deref (Successors P) SuccessorIt ;
      updSuccessors Predecessor (swap_with_back SuccessorIt) ;;
      destroy O ;;
      updSuccessors Predecessor pop_back ;;
      updPredecessors this (λ l, pop_back (swap_with_back Iterator l)) ;;
      ret Iterator.

(** The public [removeSuccessor] overloads: by iterator (all four
    iterator flavours wrap the same offset) and by node. *)
Definition removeSuccessor_it (this : addr) (Iterator : nat) : M nat :=
  removeSuccessorImpl this Iterator.

Definition removeSuccessor (this S : addr) : M nat :=
  n ← load this ;
  removeSuccessorImpl this (findSuccessorImpl n S).

(** The public [removePredecessor] overloads.  The header wraps their
    result in [ReverseSuccessorEdgeIterator], a name it does not
    declare; the model returns the offset [removePredecessorImpl]
    computed. *)
Definition removePredecessor_it (this : addr) (Iterator : nat) : M nat :=
  removePredecessorImpl this Iterator.

Definition removePredecessor (this P : addr) : M nat :=
  n ← load this ;
  removePredecessorImpl this (findPredecessorImpl n P).

(** The two loops of [disconnect]; [fuel] bounds the iterations. *)
Fixpoint disconnect_successors (fuel : nat) (this : addr) (It : nat) : M unit :=
  match fuel with
  | 0 => out_of_fuel
  | S fuel' =>
      n ← load this ;
      if bool_decide (It = length (Successors n)) then ret tt
      else
        It' ← removeSuccessorImpl this It ;
        disconnect_successors fuel' this It'
  end.

Fixpoint disconnect_predecessors (fuel : nat) (this : addr) (It : nat) : M unit :=
  match fuel with
  | 0 => out_of_fuel
  | S fuel' =>
      n ← load this ;
      if bool_decide (It = length (Predecessors n)) then ret tt
      else
        It' ← removePredecessorImpl this It ;
        disconnect_predecessors fuel' this It'
  end.

Definition disconnect (fuel : nat) (this : addr) : M addr :=
  disconnect_successors fuel this 0 ;;
  disconnect_predecessors fuel this 0 ;;
  ret this.

(** ** The class invariant of a store of mutable-edge nodes *)

(** The two vectors of the node at [a]; a dangling address has none. *)
Definition succs (σ : gmap addr MutableEdgeNode) (a : addr) : list OwningEdge :=
  match σ !! a with Some n => Successors n | None => [] end.

Definition preds (σ : gmap addr MutableEdgeNode) (a : addr) : list NonOwningEdge :=
  match σ !! a with Some n => Predecessors n | None => [] end.

(** At most one edge per direction between two nodes, and every edge
    has its two halves: the owner record in the source and the view
    record, with the same label pointer, in the target. *)
Record wf (σ : gmap addr MutableEdgeNode) : Prop := mkWf {
  wf_succs_NoDup : ∀ a, NoDup (ONeighbor <$> succs σ a);
  wf_preds_NoDup : ∀ a, NoDup (VNeighbor <$> preds σ a);
  wf_mirror : ∀ a b l,
    mkOwningEdge b l ∈ succs σ a ↔ mkNonOwningEdge a l ∈ preds σ b
}.

#[global] Instance OwningEdge_eq_dec : EqDecision OwningEdge.
Proof. solve_decision. Defined.

#[global] Instance NonOwningEdge_eq_dec : EqDecision NonOwningEdge.
Proof. solve_decision. Defined.

(** The invariant, node by node over the allocated nodes: this form
    can be checked by evaluation. *)
Definition wf_node (σ : gmap addr MutableEdgeNode) (a : addr)
    (n : MutableEdgeNode) : Prop :=
  NoDup (ONeighbor <$> Successors n)
  ∧ NoDup (VNeighbor <$> Predecessors n)
  ∧ Forall (λ e, mkNonOwningEdge a (OLabel e) ∈ preds σ (ONeighbor e))
      (Successors n)
  ∧ Forall (λ v, mkOwningEdge a (VLabel v) ∈ succs σ (VNeighbor v))
      (Predecessors n).

#[global] Instance wf_node_dec σ a n : Decision (wf_node σ a n).
Proof. unfold wf_node. apply _. Defined.

(** [σ'] is [σ] without the edge from [A] to [B]: both halves are
    gone, every other record is still there, no node was allocated or
    freed. *)
Record edge_removed (A B : addr) (σ σ' : gmap addr MutableEdgeNode) : Prop :=
  mkEdgeRemoved {
    er_allocated : ∀ a, is_Some (σ' !! a) ↔ is_Some (σ !! a);
    er_succs : ∀ a e,
      e ∈ succs σ' a ↔ e ∈ succs σ a ∧ ¬ (a = A ∧ ONeighbor e = B);
    er_preds : ∀ b v,
      v ∈ preds σ' b ↔ v ∈ preds σ b ∧ ¬ (b = B ∧ VNeighbor v = A);
    er_succs_length : ∀ a,
      length (succs σ' a)
      = if decide (a = A) then pred (length (succs σ a)) else length (succs σ a);
    er_preds_length : ∀ b,
      length (preds σ' b)
      = if decide (b = B) then pred (length (preds σ b)) else length (preds σ b);
    er_succs_NoDup : ∀ a, NoDup (ONeighbor <$> succs σ' a);
    er_preds_NoDup : ∀ a, NoDup (VNeighbor <$> preds σ' a)
  }.

(** [σ'] has the nodes of [σ] and a part of its records. *)
Record shrunk (σ σ' : gmap addr MutableEdgeNode) : Prop := mkShrunk {
  sh_allocated : ∀ a, is_Some (σ' !! a) ↔ is_Some (σ !! a);
  sh_succs : ∀ a e, e ∈ succs σ' a → e ∈ succs σ a;
  sh_preds : ∀ a v, v ∈ preds σ' a → v ∈ preds σ a;
  sh_succs_length : ∀ a, length (succs σ' a) ≤ length (succs σ a);
  sh_preds_length : ∀ a, length (preds σ' a) ≤ length (preds σ a)
}.

(** The node map after an in-place update of one vector at [p]. *)
Definition mapSuccessors (p : addr) (f : list OwningEdge → list OwningEdge)
    (σ : gmap addr MutableEdgeNode) : gmap addr MutableEdgeNode :=
  alter (λ n, mkNode (TheParent n) (f (Successors n)) (Predecessors n)) p σ.

Definition mapPredecessors (p : addr)
    (f : list NonOwningEdge → list NonOwningEdge)
    (σ : gmap addr MutableEdgeNode) : gmap addr MutableEdgeNode :=
  alter (λ n, mkNode (TheParent n) (Successors n) (f (Predecessors n))) p σ.

(** The label heap after the owner of [l] is destroyed. *)
Definition release (l : option loc) (h : gmap loc EdgeLabel) : gmap loc EdgeLabel :=
  match l with Some l => delete l h | None => h end.

(** ** EntryNode and GenericGraph (over [MutableEdgeNode]) *)

(** [GenericGraph<NodeT, SmallSize, HasEntryNode = true>]: the
    [EntryNode] base holds a possibly null node pointer, [Nodes] the
    [unique_ptr]s of the owned nodes in insertion order. *)
Record GenericGraph : Type := mkGraph {
  EntryNode : option addr;
  Nodes : list addr
}.

(** A freshly constructed graph: [EntryNode = nullptr], no nodes. *)
Definition newGraph : GenericGraph := mkGraph None [].

Definition getEntryNode (G : GenericGraph) : option addr := EntryNode G.
Definition setEntryNode (P : option addr) (G : GenericGraph) : GenericGraph :=
  mkGraph P (Nodes G).

Definition size (G : GenericGraph) : nat := length (Nodes G).

Definition findNode (G : GenericGraph) (NodePtr : addr) : nat :=
  find_if (λ N, bool_decide (N = NodePtr)) (Nodes G).

Definition hasNode (G : GenericGraph) (NodePtr : addr) : bool :=
  negb (bool_decide (findNode G NodePtr = length (Nodes G))).

(** [std::make_unique<NodeT>]: a fresh node without edges. *)
Definition make_node : M addr := λ s,
  let a := fresh (dom (nodes s)) in
  Returns a (mkMemory (<[a := mkNode None [] []]> (nodes s)) (labels s)).

Definition setParent (p : addr) (Parent : option addr) : M unit :=
  n ← load p ; store p (mkNode Parent (Successors n) (Predecessors n)).

(** [addNode(Args...)]; [this] is the address of the graph object. *)
Definition addNode (this : addr) (G : GenericGraph) : M (addr * GenericGraph) :=
  a ← make_node ;
  (if HasParent then setParent a (Some this) else ret tt) ;;
  ret (a, mkGraph (EntryNode G) (emplace_back a (Nodes G))).

(** The destructor of a node, run when its [unique_ptr] is erased:
    the owner records still in [Successors] release their labels. *)
Fixpoint destroy_all (l : list OwningEdge) : M unit :=
  match l with
  | [] => ret tt
  | e :: l' => destroy e ;; destroy_all l'
  end.

Definition deallocate (p : addr) : M unit := λ s,
  Returns tt (mkMemory (delete p (nodes s)) (labels s)).

Definition delete_node (p : addr) : M unit :=
  n ← load p ;
  destroy_all (Successors n) ;;
  deallocate p.

(** [removeNode(nodes_iterator)], in the [IsMutableEdgeNode] branch. *)
Definition removeNode_it (fuel : nat) (G : GenericGraph) (It : nat)
  : M (nat * GenericGraph) :=
  p ← deref (Nodes G) It ;
  disconnect fuel p ;;
  delete_node p ;;
  ret (It, mkGraph (EntryNode G) (erase It (Nodes G))).

(** [removeNode] by node pointer. *)
Definition removeNode (fuel : nat) (G : GenericGraph) (NodePtr : addr)
  : M (nat * GenericGraph) :=
  removeNode_it fuel G (findNode G NodePtr).

(** The scenario of the spec's testable properties: a graph with the
    nodes A, B and C, the edges A→B and B→C, the three counts, then
    [removeNode(B)] and the two counts again, together with the nodes
    left in the container. *)
Definition remove_middle_scenario (fuel : nat) (this : addr)
    (EL1 EL2 : EdgeLabel)
  : M (nat * nat * nat * (nat * nat) * (addr * addr * addr) * list addr) :=
  '(A, G) ← addNode this newGraph ;
  '(B, G) ← addNode this G ;
  '(C, G) ← addNode this G ;
  addSuccessor A B EL1 ;;
  addSuccessor B C EL2 ;;
  a1 ← successorCount A ;
  b1 ← predecessorCount B ;
  c1 ← predecessorCount C ;
  '(_, G) ← removeNode fuel G B ;
  a2 ← successorCount A ;
  c2 ← predecessorCount C ;
  ret (a1, b1, c1, (a2, c2), (A, B, C), Nodes G).

(** The stores a program can get to through the public interface of
    [MutableEdgeNode] and [GenericGraph], starting without nodes.
    ([removeNode] by pointer is [removeNode_it] at the offset found.) *)
Inductive reachable : memory → Prop :=
  | reach_new : reachable (mkMemory ∅ ∅)
  | reach_addNode this G r s s' :
      reachable s → addNode this G s = Returns r s' → reachable s'
  | reach_addSuccessor this S EL r s s' :
      reachable s → addSuccessor this S EL s = Returns r s' → reachable s'
  | reach_addPredecessor this P EL r s s' :
      reachable s → addPredecessor this P EL s = Returns r s' → reachable s'
  | reach_removeSuccessor_it this It r s s' :
      reachable s → removeSuccessor_it this It s = Returns r s' → reachable s'
  | reach_removeSuccessor this S r s s' :
      reachable s → removeSuccessor this S s = Returns r s' → reachable s'
  | reach_removePredecessor_it this It r s s' :
      reachable s → removePredecessor_it this It s = Returns r s' → reachable s'
  | reach_removePredecessor this P r s s' :
      reachable s → removePredecessor this P s = Returns r s' → reachable s'
  | reach_disconnect fuel this r s s' :
      reachable s → disconnect fuel this s = Returns r s' → reachable s'
  | reach_removeNode_it fuel G It r s s' :
      reachable s → removeNode_it fuel G It s = Returns r s' → reachable s'.

(** ** Ranges, searches and the traversal interface *)

(** [successors()] and [predecessors()]: the neighbours, in the order
    of the records.  [GraphTraits<T *>::child_begin/child_end] delimit
    the first range, [GraphTraits<llvm::Inverse<T *>>] the second. *)
Definition successors (this : addr) : M (list addr) :=
  n ← load this ; ret (ONeighbor <$> Successors n).

Definition predecessors (this : addr) : M (list addr) :=
  n ← load this ; ret (VNeighbor <$> Predecessors n).

(** [SuccessorFilters::toView] and [PredecessorFilters::toView]. *)
Definition toViewS (E : OwningEdge) : EdgeView :=
  mkEdgeView (ONeighbor E) (OLabel E).

Definition toViewP (E : NonOwningEdge) : EdgeView :=
  mkEdgeView (VNeighbor E) (VLabel E).

(** [successor_edges()] and [predecessor_edges()]: the views; they are
    the ranges behind [child_edge_begin/child_edge_end]. *)
Definition successor_edges (this : addr) : M (list EdgeView) :=
  n ← load this ; ret (toViewS <$> Successors n).

Definition predecessor_edges (this : addr) : M (list EdgeView) :=
  n ← load this ; ret (toViewP <$> Predecessors n).

(** [GraphTraits::edge_dest]. *)
Definition edge_dest (Edge : EdgeView) : addr := EVNeighbor Edge.

(** [findSuccessor]/[findSuccessorEdge] and the predecessor versions:
    the four iterator flavours wrap the offset the search returns. *)
Definition findSuccessor (this S : addr) : M nat :=
  n ← load this ; ret (findSuccessorImpl n S).

Definition findPredecessor (this P : addr) : M nat :=
  n ← load this ; ret (findPredecessorImpl n P).

(** Dereferencing a [SuccessorEdgeIterator] / [PredecessorEdgeIterator]
    of [this]. *)
Definition derefSuccessorEdge (this : addr) (It : nat) : M EdgeView :=
  n ← load this ; E ← deref (Successors n) It ; ret (toViewS E).

Definition derefPredecessorEdge (this : addr) (It : nat) : M EdgeView :=
  n ← load this ; E ← deref (Predecessors n) It ; ret (toViewP E).

(** ** Ownership of the labels *)

(** Every label a successor record points to is allocated, every
    allocated label is pointed to by a successor record, and no two
    successor records point to the same label. *)
Record labels_owned (s : memory) : Prop := mkLabelsOwned {
  lo_allocated : ∀ a e l,
    e ∈ succs (nodes s) a → OLabel e = Some l → is_Some (labels s !! l);
  lo_owned : ∀ l,
    is_Some (labels s !! l) →
    ∃ a e, e ∈ succs (nodes s) a ∧ OLabel e = Some l;
  lo_unique : ∀ a e a' e' l,
    e ∈ succs (nodes s) a → e' ∈ succs (nodes s) a' →
    OLabel e = Some l → OLabel e' = Some l → a = a' ∧ e = e'
}.

(** ** The container and its nodes *)

(** [hasNodes()]. *)
Definition hasNodes (G : GenericGraph) : bool :=
  negb (bool_decide (length (Nodes G) = 0)).

(** The container and the store fit together: no slot is listed
    twice, the nodes listed are the nodes allocated, and the store is
    well-formed. *)
Record graph_wf (G : GenericGraph) (s : memory) : Prop := mkGraphWf {
  gw_NoDup : NoDup (Nodes G);
  gw_allocated : ∀ a, a ∈ Nodes G ↔ is_Some (nodes s !! a);
  gw_store : wf (nodes s)
}.

(** A graph, with its store, as a program gets to it through the
    public interface of [GenericGraph] and of its nodes. *)
Inductive graph_reachable : GenericGraph → memory → Prop :=
  | greach_new : graph_reachable newGraph (mkMemory ∅ ∅)
  | greach_addNode this G a G' s s' :
      graph_reachable G s → addNode this G s = Returns (a, G') s' →
      graph_reachable G' s'
  | greach_setEntryNode P G s :
      graph_reachable G s → graph_reachable (setEntryNode P G) s
  | greach_addSuccessor this S EL r G s s' :
      graph_reachable G s → addSuccessor this S EL s = Returns r s' →
      graph_reachable G s'
  | greach_addPredecessor this P EL r G s s' :
      graph_reachable G s → addPredecessor this P EL s = Returns r s' →
      graph_reachable G s'
  | greach_removeSuccessor_it this It r G s s' :
      graph_reachable G s → removeSuccessor_it this It s = Returns r s' →
      graph_reachable G s'
  | greach_removeSuccessor this S r G s s' :
      graph_reachable G s → removeSuccessor this S s = Returns r s' →
      graph_reachable G s'
  | greach_removePredecessor_it this It r G s s' :
      graph_reachable G s → removePredecessor_it this It s = Returns r s' →
      graph_reachable G s'
  | greach_removePredecessor this P r G s s' :
      graph_reachable G s → removePredecessor this P s = Returns r s' →
      graph_reachable G s'
  | greach_disconnect fuel this r G s s' :
      graph_reachable G s → disconnect fuel this s = Returns r s' →
      graph_reachable G s'
  | greach_removeNode_it fuel It r G G' s s' :
      graph_reachable G s → removeNode_it fuel G It s = Returns (r, G') s' →
      graph_reachable G' s'.

End MutableEdgeNode.

Arguments memory : clear implicits.

End MutableEdge.

(** ** The logger of [lib/Support/Debug.cpp] *)

Module Debug.

(** What a call does: it returns, or dies in [revng_assert], or throws
    a standard exception, or is still looping when the fuel of the
    model runs out. *)
Inductive result (A : Type) : Type :=
  | Ok (a : A)
  | AssertFailed
  | Throws (what : string)
  | Timeout.
Arguments Ok {A} a.
Arguments AssertFailed {A}.
Arguments Throws {A} what.
Arguments Timeout {A}.

#[global] Instance result_ret : MRet result := @Ok.
#[global] Instance result_bind : MBind result := λ A B k c,
  match c with
  | Ok a => k a
  | AssertFailed => AssertFailed
  | Throws what => Throws what
  | Timeout => Timeout
  end.

(** [unsigned] has 32 bits and [size_t] 64. *)
Definition UNSIGNED : Z := 2 ^ 32.
Definition SIZE_T : Z := 2 ^ 64.

(** A [std::string] is the list of its characters. *)
Definition size (s : list ascii) : Z := Z.of_nat (length s).

Definition newline : ascii := "010"%char.
Definition slash : ascii := "/"%char.
Definition space : ascii := " "%char.

(** [s.find(c, Start)]: the first position from [Start] on that holds
    [c]; [None] is [npos]. *)
Definition find (c : ascii) (s : list ascii) (Start : nat) : option nat :=
  let rest := drop Start s in
  let i := find_if (λ x, bool_decide (x = c)) rest in
  if bool_decide (i = length rest) then None else Some (Start + i).

(** [s.rfind(c)]: the last position that holds [c]. *)
Definition rfind (c : ascii) (s : list ascii) : option nat :=
  let i := find_if (λ x, bool_decide (x = c)) (reverse s) in
  if bool_decide (i = length s) then None else Some (length s - 1 - i).

Section Logger.

(** The template parameter of [Logger<X>], and
    [std::string::max_size()]. *)
Variable X : bool.
Variable max_size : Z.

(** The members of [Logger] that [flush] uses; the class is declared
    in [revng/Support/Debug.h].  [Name] holds the characters that
    [Name.data()] points to. *)
Record Logger : Type := mkLogger {
  Name : list ascii;
  Enabled : bool;
  Buffer : list ascii
}.

Record LogTerminator : Type := mkLogTerminator {
  File : list ascii;
  Line : Z
}.

(** The objects of the translation unit: the stream [dbg], the static
    [IndentLevel], [MaxLoggerNameLength] and the option
    [MaxLocationLength]. *)
Record globals : Type := mkGlobals {
  dbg : list ascii;
  IndentLevel : Z;
  MaxLoggerNameLength : Z;
  MaxLocationLength : Z
}.

Definition setIndentLevel (v : Z) (g : globals) : globals :=
  mkGlobals (dbg g) v (MaxLoggerNameLength g) (MaxLocationLength g).

Definition setDbg (out : list ascii) (g : globals) : globals :=
  mkGlobals out (IndentLevel g) (MaxLoggerNameLength g) (MaxLocationLength g).

(** [std::string(n, c)]. *)
Definition string_n (n : Z) (c : ascii) : result (list ascii) :=
  if (n <=? max_size)%Z then Ok (replicate (Z.to_nat n) c)
  else Throws "length_error".

(** [s.substr(Start, Count)]; a count of [None] is one that runs past
    the end, as [npos] and [npos - Start] do. *)
Definition substr (s : list ascii) (Start : nat) (Count : option nat)
  : result (list ascii) :=
  if bool_decide (length s < Start) then Throws "out_of_range"
  else Ok (match Count with
           | Some n => take n (drop Start s)
           | None => drop Start s
           end).

(** [Twine(Line).str()]: the decimal digits. *)
Definition decimal (n : Z) : list ascii :=
  String.list_ascii_of_string
    (DecimalString.NilEmpty.string_of_uint (N.to_uint (Z.to_N n))).

(** The block of [flush] under [MaxLocationLength != 0]: the text it
    sends to [dbg]. *)
Definition flush_location (LineInfo : LogTerminator) (g : globals)
  : result (list ascii) :=
  let Suffix := ":"%char :: decimal (Line LineInfo) in
  if negb (size Suffix <? MaxLocationLength g)%Z then AssertFailed
  else
    let Location := File LineInfo in
    let Location :=
      match rfind slash Location with
      | Some LastSlash => drop (LastSlash + 1) Location
      | None => Location
      end in
    let Room := ((MaxLocationLength g - size Suffix) `mod` SIZE_T)%Z in
    let Location :=
      if (Room <? size Location)%Z then take (Z.to_nat Room) Location
      else Location in
    Pad ← string_n
            ((MaxLocationLength g - size Location - size Suffix) `mod` SIZE_T)%Z
            space ;
    Ok (["["%char] ++ Location ++ Suffix ++ ["]"; " "]%char ++ Pad).

(** The [do ... while] loop of [flush]: [End] is the position of the
    newline found last. *)
Fixpoint flush_lines (fuel : nat) (Data Pad : list ascii) (End : nat)
    (out : list ascii) : result (list ascii) :=
  match fuel with
  | 0 => Timeout
  | S fuel' =>
      let Start := End + 1 in
      let End' := find newline Data Start in
      Piece ← substr Data Start ((λ e, e - Start) <$> End') ;
      let out := out ++ Pad ++ Piece ++ [newline] in
      match End' with
      | Some e => flush_lines fuel' Data Pad e out
      | None => Ok out
      end
  end.

(** [Logger<X>::flush]. *)
Definition flush (fuel : nat) (L : Logger) (LineInfo : LogTerminator)
    (g : globals) : result (Logger * globals) :=
  if X && Enabled L then
    out ← (if bool_decide (MaxLocationLength g ≠ 0%Z)
           then loc ← flush_location LineInfo g ; Ok (dbg g ++ loc)
           else Ok (dbg g)) ;
    Pad ← string_n
            ((MaxLoggerNameLength g - size (Name L)
              + (IndentLevel g * 2) `mod` UNSIGNED) `mod` SIZE_T)%Z
            space ;
    let out := out ++ ["["%char] ++ Name L ++ ["]"; " "]%char ++ Pad in
    let Data := Buffer L in
    let Data :=
      if bool_decide (last Data = Some newline) then pop_back Data else Data in
    let End := find newline Data 0 in
    Piece ← substr Data 0 End ;
    let out := out ++ Piece ++ [newline] in
    out ← match End with
          | Some e =>
              Pad ← string_n
                      ((3 + MaxLoggerNameLength g
                        + (IndentLevel g * 2) `mod` UNSIGNED) `mod` SIZE_T)%Z
                      space ;
              flush_lines fuel Data Pad e out
          | None => Ok out
          end ;
    Ok (mkLogger (Name L) (Enabled L) [], setDbg out g)
  else Ok (L, g).

(** [indent], [unindent] and [setIndentation]; [isEnabled] is the
    result of the call to [isEnabled()], which [Debug.h] declares.
    [IndentLevel - Level >= 0] compares an [unsigned]. *)
Definition indent (isEnabled : bool) (Level : Z) (g : globals) : result globals :=
  if isEnabled
  then Ok (setIndentLevel ((IndentLevel g + Level) `mod` UNSIGNED)%Z g)
  else Ok g.

Definition unindent (isEnabled : bool) (Level : Z) (g : globals)
  : result globals :=
  if isEnabled then
    if negb (0 <=? (IndentLevel g - Level) `mod` UNSIGNED)%Z then AssertFailed
    else Ok (setIndentLevel ((IndentLevel g - Level) `mod` UNSIGNED)%Z g)
  else Ok g.

Definition setIndentation (isEnabled : bool) (Level : Z) (g : globals)
  : result globals :=
  if isEnabled then Ok (setIndentLevel Level g) else Ok g.

(** The lines of a text: the pieces between newlines. *)
Fixpoint lines (s : list ascii) : list (list ascii) :=
  match s with
  | [] => [[]]
  | c :: s' =>
      if bool_decide (c = newline) then [] :: lines s'
      else match lines s' with
           | l :: ls => (c :: l) :: ls
           | [] => [[c]]
           end
  end.

End Logger.
End Debug.

(** ** Example stores *)

Module Examples.
Import MutableEdge.

(** Two nodes without edges. *)
Definition isolated2 : memory nat :=
  mkMemory (<[1 := mkNode None [] []]> (<[0 := mkNode None [] []]> ∅)) ∅.

(** The edge 0→1, labeled 7. *)
Definition linked2 : memory nat :=
  mkMemory
    (<[1 := mkNode None [] [mkNonOwningEdge 0 (Some 0)]]>
       (<[0 := mkNode None [mkOwningEdge 1 (Some 0)] []]> ∅))
    (<[0 := 7]> ∅).

(** The chain 0→1→2, labeled 7 and 8. *)
Definition chain3 : memory nat :=
  mkMemory
    (<[2 := mkNode None [] [mkNonOwningEdge 1 (Some 1)]]>
       (<[1 := mkNode None [mkOwningEdge 2 (Some 1)] [mkNonOwningEdge 0 (Some 0)]]>
          (<[0 := mkNode None [mkOwningEdge 1 (Some 0)] []]> ∅)))
    (<[1 := 8]> (<[0 := 7]> ∅)).

(** Broken layouts.  In [lost_view] node 0 owns a record for node 1,
    whose predecessor vector is empty; in [stray_view] the predecessor
    vector of node 1 holds a record, but for node 2.  [lost_owner] and
    [stray_owner] are the same with the directions exchanged. *)
Definition lost_view : memory nat :=
  mkMemory
    (<[1 := mkNode None [] []]>
       (<[0 := mkNode None [mkOwningEdge 1 (Some 0)] []]> ∅))
    (<[0 := 7]> ∅).

Definition stray_view : memory nat :=
  mkMemory
    (<[2 := mkNode None [mkOwningEdge 1 (Some 1)] []]>
       (<[1 := mkNode None [] [mkNonOwningEdge 2 (Some 1)]]>
          (<[0 := mkNode None [mkOwningEdge 1 (Some 0)] []]> ∅)))
    (<[1 := 8]> (<[0 := 7]> ∅)).

Definition lost_owner : memory nat :=
  mkMemory
    (<[1 := mkNode None [] [mkNonOwningEdge 0 (Some 0)]]>
       (<[0 := mkNode None [] []]> ∅))
    ∅.

Definition stray_owner : memory nat :=
  mkMemory
    (<[2 := mkNode None [] [mkNonOwningEdge 0 (Some 1)]]>
       (<[1 := mkNode None [] [mkNonOwningEdge 0 (Some 0)]]>
          (<[0 := mkNode None [mkOwningEdge 2 (Some 1)] []]> ∅)))
    (<[1 := 8]> ∅).

(** A bidirectional store with the edge 0→1, labeled 7 on both sides. *)
Definition bi_linked2 : gmap nat (@Bidirectional.BidirectionalNode nat) :=
  <[1 := Bidirectional.mkNode [] [Bidirectional.mkEdge 0 7]]>
    (<[0 := Bidirectional.mkNode [Bidirectional.mkEdge 1 7] []]> ∅).

Definition bi_isolated2 : gmap nat (@Bidirectional.BidirectionalNode nat) :=
  <[1 := Bidirectional.mkNode [] []]> (<[0 := Bidirectional.mkNode [] []]> ∅).

(** Node 0 with the three successors 1, 2 and 3. *)
Definition fan3 : memory nat :=
  mkMemory
    (<[3 := mkNode None [] [mkNonOwningEdge 0 (Some 2)]]>
       (<[2 := mkNode None [] [mkNonOwningEdge 0 (Some 1)]]>
          (<[1 := mkNode None [] [mkNonOwningEdge 0 (Some 0)]]>
             (<[0 := mkNode None
                      [mkOwningEdge 1 (Some 0); mkOwningEdge 2 (Some 1);
                       mkOwningEdge 3 (Some 2)] []]> ∅))))
    (<[2 := 9]> (<[1 := 8]> (<[0 := 7]> ∅))).

(** What is left of [chain3] without its middle node. *)
Definition ends_only : memory nat :=
  mkMemory (<[2 := mkNode None [] []]> (<[0 := mkNode None [] []]> ∅)) ∅.

(** A graph over [chain3] whose entry node is the middle node. *)
Definition chain3_graph : GenericGraph := mkGraph (Some 1) [0; 1; 2].

(** A logger named "passes" holding three lines, the source position
    of a log statement, and the objects of the translation unit with
    and without a location column. *)
Definition passes_log : Debug.Logger :=
  Debug.mkLogger (String.list_ascii_of_string "passes") true
    (String.list_ascii_of_string "ab" ++ [Debug.newline]
     ++ String.list_ascii_of_string "cd" ++ [Debug.newline; Debug.newline]).

Definition log_site : Debug.LogTerminator :=
  Debug.mkLogTerminator (String.list_ascii_of_string "lib/Support/Debug.cpp") 42.

Definition with_location : Debug.globals := Debug.mkGlobals [] 1 8 12.
Definition without_location : Debug.globals := Debug.mkGlobals [] 1 8 0.

End Examples.

(** * Properties *)

(** Unfolding one monadic step. *)
Lemma bind_unfold {Σ A B} (c : M Σ A) (k : A → M Σ B) (s : Σ) :
  (c ≫= k) s =
  match c s with
  | Returns a s' => k a s'
  | Aborts msg s' => Aborts msg s'
  | Undefined => Undefined
  | OutOfFuel => OutOfFuel
  end.
Proof. reflexivity. Qed.

Lemma ret_unfold {Σ A} (a : A) (s : Σ) : (mret a : M Σ A) s = Returns a s.
Proof. reflexivity. Qed.

Lemma revng_assert_true {Σ} msg (s : Σ) : revng_assert true msg s = Returns tt s.
Proof. reflexivity. Qed.

Lemma revng_assert_false {Σ} msg (s : Σ) : revng_assert false msg s = Aborts msg s.
Proof. reflexivity. Qed.

(** ** Vectors *)

Section Vectors.
Context {A : Type}.
Implicit Types (l : list A) (P : A → bool).

Lemma find_if_le P l : find_if P l ≤ length l.
Proof. induction l as [|x l IH]; simpl; [lia|]. destruct (P x); lia. Qed.

Lemma find_if_lookup P l x : l !! find_if P l = Some x → P x = true.
Proof.
  induction l as [|y l IH]; simpl; [done|].
  destruct (P y) eqn:Hy; simpl; [by intros [= <-]|done].
Qed.

Lemma find_if_end P l :
  find_if P l = length l ↔ ∀ x, x ∈ l → P x = false.
Proof.
  induction l as [|y l IH]; simpl.
  - split; [intros _ x Hx; by apply elem_of_nil in Hx|done].
  - destruct (P y) eqn:Hy.
    + split; [done|]. intros H. specialize (H y (list_elem_of_here _ _)). congruence.
    + split.
      * intros [= H] x [->|Hx]%elem_of_cons; [done|]. by apply IH.
      * intros H. f_equal. apply IH. intros x Hx. apply H. by right.
Qed.

Lemma find_if_found P l :
  find_if P l ≠ length l → ∃ x, l !! find_if P l = Some x ∧ P x = true.
Proof.
  intros Hne. pose proof (find_if_le P l).
  destruct (lookup_lt_is_Some_2 l (find_if P l)) as [x Hx]; [lia|].
  exists x. split; [done|]. by eapply find_if_lookup.
Qed.

Lemma find_if_first P l i x :
  l !! i = Some x → P x = true → find_if P l ≤ i.
Proof.
  revert i. induction l as [|y l IH]; intros i; simpl; [done|].
  destruct (P y) eqn:Hy; [lia|].
  destruct i as [|i]; simpl.
  - intros [= ->]. congruence.
  - intros Hl Hx. specialize (IH i Hl Hx). lia.
Qed.

Lemma swap_pop_last l1 x :
  pop_back (swap_with_back (length l1) (l1 ++ [x])) = l1.
Proof.
  unfold swap_with_back, pop_back.
  rewrite list_lookup_middle by done. rewrite last_snoc.
  rewrite !length_insert, length_app. simpl.
  replace (length l1 + 1 - 1) with (length l1) by lia.
  rewrite list_insert_insert_eq.
  rewrite insert_app_r_alt by lia. rewrite Nat.sub_diag. simpl.
  by rewrite take_app_length.
Qed.

Lemma swap_pop_mid l1 x l2 y :
  pop_back (swap_with_back (length l1) (l1 ++ x :: l2 ++ [y]))
  = l1 ++ y :: l2.
Proof.
  unfold swap_with_back, pop_back.
  rewrite list_lookup_middle by done.
  replace (last (l1 ++ x :: l2 ++ [y])) with (Some y)
    by (by rewrite (app_assoc l1 (x :: l2) [y] : l1 ++ x :: l2 ++ [y] = _), last_snoc).
  rewrite !length_insert, !length_app. simpl. rewrite length_app. simpl.
  replace (length l1 + S (length l2 + 1) - 1)
    with (length (l1 ++ y :: l2)) by (rewrite length_app; simpl; lia).
  rewrite (insert_app_r_alt l1) by lia. rewrite Nat.sub_diag. simpl.
  replace (l1 ++ y :: l2 ++ [y]) with ((l1 ++ y :: l2) ++ [y])
    by (by rewrite <-app_assoc).
  rewrite insert_app_r_alt by lia. rewrite Nat.sub_diag. simpl.
  by rewrite take_app_length.
Qed.

Lemma swap_pop_middle l1 x l2 :
  pop_back (swap_with_back (length l1) (l1 ++ x :: l2)) ≡ₚ l1 ++ l2.
Proof.
  destruct l2 as [|y l2 _] using rev_ind.
  - by rewrite swap_pop_last, app_nil_r.
  - rewrite swap_pop_mid. apply Permutation_app_head.
    by rewrite Permutation_app_comm.
Qed.

Lemma lookup_split l i x :
  l !! i = Some x → ∃ l1 l2, l = l1 ++ x :: l2 ∧ i = length l1.
Proof.
  intros Hi. exists (take i l), (drop (S i) l). split.
  - by rewrite take_drop_middle.
  - rewrite length_take. apply lookup_lt_Some in Hi. lia.
Qed.

Lemma swap_pop_perm l i x :
  l !! i = Some x → pop_back (swap_with_back i l) ≡ₚ delete i l.
Proof.
  intros (l1 & l2 & -> & ->)%lookup_split.
  by rewrite swap_pop_middle, delete_middle.
Qed.

Lemma swap_pop_length l i x :
  l !! i = Some x → S (length (pop_back (swap_with_back i l))) = length l.
Proof.
  intros Hi. rewrite (swap_pop_perm l i x Hi), length_delete by eauto.
  apply lookup_lt_Some in Hi. lia.
Qed.

Lemma swap_pop_elem_of l i x y :
  l !! i = Some x → y ∈ pop_back (swap_with_back i l) → y ∈ l.
Proof.
  intros Hi. rewrite (swap_pop_perm l i x Hi).
  apply list_subseteq_delete.
Qed.

Lemma swap_pop_NoDup {B} (f : A → B) l i x :
  l !! i = Some x → NoDup (f <$> l) →
  NoDup (f <$> pop_back (swap_with_back i l)).
Proof.
  intros Hi Hnd. rewrite (swap_pop_perm l i x Hi).
  apply lookup_split in Hi as (l1 & l2 & -> & ->).
  rewrite delete_middle. rewrite fmap_app in *. simpl in Hnd.
  apply NoDup_app in Hnd as (H1 & H2 & H3). apply NoDup_cons in H3 as [H3 H4].
  apply NoDup_app. split; [done|]. split; [|done].
  intros b Hb Hb'. apply (H2 b Hb). by right.
Qed.

Lemma swap_pop_elem_of_NoDup {B} (f : A → B) l i x y :
  l !! i = Some x → NoDup (f <$> l) →
  y ∈ pop_back (swap_with_back i l) ↔ y ∈ l ∧ f y ≠ f x.
Proof.
  intros Hi Hnd. rewrite (swap_pop_perm l i x Hi).
  apply lookup_split in Hi as (l1 & l2 & -> & ->).
  rewrite delete_middle. rewrite fmap_app in Hnd. simpl in Hnd.
  apply NoDup_app in Hnd as (H1 & H2 & H3). apply NoDup_cons in H3 as [H3 H4].
  rewrite !elem_of_app, elem_of_cons. split.
  - intros [Hy|Hy].
    + split; [by left|]. intros Heq. apply (H2 (f y)).
      * by apply list_elem_of_fmap_2.
      * rewrite Heq. by left.
    + split; [by right; right|]. intros Heq. apply H3. rewrite <-Heq.
      by apply list_elem_of_fmap_2.
  - intros [[Hy|[->|Hy]] Hne]; [by left|done|by right].
Qed.
End Vectors.

(** ** BidirectionalNode *)

Section BidirectionalTheory.
Import Bidirectional.
Context {EdgeLabel : Type}.
Implicit Types (s : gmap nat (@BidirectionalNode EdgeLabel)).
Implicit Types (n : @BidirectionalNode EdgeLabel).

Lemma bi_load_eq s p n : s !! p = Some n → load p s = Returns n s.
Proof. unfold load. by intros ->. Qed.

Lemma bi_updSuccessors_eq s p f n :
  s !! p = Some n →
  updSuccessors p f s
  = Returns tt (<[p := mkNode (f (Successors n)) (Predecessors n)]> s).
Proof. intros H. unfold updSuccessors. by rewrite bind_unfold, (bi_load_eq _ _ _ H). Qed.

Lemma bi_updPredecessors_eq s p f n :
  s !! p = Some n →
  updPredecessors p f s
  = Returns tt (<[p := mkNode (Successors n) (f (Predecessors n))]> s).
Proof. intros H. unfold updPredecessors. by rewrite bind_unfold, (bi_load_eq _ _ _ H). Qed.

(** [addSuccessor] appends one record on each side. *)
Lemma bi_addSuccessor_eq s A B EL nA nB :
  A ≠ B → s !! A = Some nA → s !! B = Some nB →
  addSuccessor A B EL s
  = Returns tt
      (<[B := mkNode (Successors nB) (Predecessors nB ++ [mkEdge A EL])]>
         (<[A := mkNode (Successors nA ++ [mkEdge B EL]) (Predecessors nA)]> s)).
Proof.
  intros Hne HA HB. unfold addSuccessor, Forward_addSuccessor.
  rewrite bind_unfold, (bi_updSuccessors_eq _ _ _ _ HA).
  erewrite bi_updPredecessors_eq; [done|].
  by rewrite lookup_insert_ne.
Qed.

(** C2, as the code behaves: [B.addPredecessor(A, EL)] appends one
    successor record for [B] to [A], but two predecessor records for
    [A] to [B]: one directly, and one more through
    [BidirectionalNode::addSuccessor], which mirrors the edge again. *)
Theorem addPredecessor_appends_predecessor_twice s A B EL nA nB :
  A ≠ B → s !! A = Some nA → s !! B = Some nB →
  ∃ s', addPredecessor B A EL s = Returns tt s'
    ∧ s' !! A = Some (mkNode (Successors nA ++ [mkEdge B EL]) (Predecessors nA))
    ∧ s' !! B = Some (mkNode (Successors nB)
                        (Predecessors nB ++ [mkEdge A EL; mkEdge A EL]))
    ∧ ∀ p, p ≠ A → p ≠ B → s' !! p = s !! p.
Proof.
  intros Hne HA HB. unfold addPredecessor.
  rewrite bind_unfold, (bi_updPredecessors_eq _ _ _ _ HB).
  erewrite bi_addSuccessor_eq; [|done| |].
  2: { by rewrite lookup_insert_ne. }
  2: { by rewrite lookup_insert_eq. }
  eexists; split; [done|]. cbn.
  split; [|split].
  - rewrite lookup_insert_ne by done. by rewrite lookup_insert_eq.
  - rewrite lookup_insert_eq. unfold emplace_back. by rewrite <-app_assoc.
  - intros p HpA HpB. by rewrite !lookup_insert_ne.
Qed.

(** C6: [removeSuccessor] and [removePredecessor] erase one record
    from one vector of the node they are invoked on.  The other vector
    of that node and both vectors of every other node stay as they
    were; in particular the mirrored record at the far endpoint is not
    removed. *)
Theorem remove_touches_one_side_only s this It It' s' :
  (removeSuccessor this It s = Returns It' s' →
     ∃ n, s !! this = Some n ∧ It < length (Successors n) ∧ It' = It
       ∧ s' !! this = Some (mkNode (erase It (Successors n)) (Predecessors n))
       ∧ (∀ p, p ≠ this → s' !! p = s !! p)
       ∧ (∀ p m, s !! p = Some m →
            ∃ m', s' !! p = Some m' ∧ Predecessors m' = Predecessors m))
  ∧ (removePredecessor this It s = Returns It' s' →
     ∃ n, s !! this = Some n ∧ It < length (Predecessors n) ∧ It' = It
       ∧ s' !! this = Some (mkNode (Successors n) (erase It (Predecessors n)))
       ∧ (∀ p, p ≠ this → s' !! p = s !! p)
       ∧ (∀ p m, s !! p = Some m →
            ∃ m', s' !! p = Some m' ∧ Successors m' = Successors m)).
Proof.
  split.
  - unfold removeSuccessor. rewrite bind_unfold. unfold load at 1.
    destruct (s !! this) as [n|] eqn:Hn; [|done].
    case_bool_decide as Hlt; [|done].
    rewrite bind_unfold, (bi_updSuccessors_eq _ _ _ _ Hn).
    cbn. intros [= <- <-].
    exists n. repeat split; try done.
    + by rewrite lookup_insert_eq.
    + intros p Hp. by rewrite lookup_insert_ne.
    + intros p m Hm. destruct (decide (p = this)) as [->|Hp].
      * rewrite lookup_insert_eq. eexists; split; [done|]. cbn. congruence.
      * rewrite lookup_insert_ne by done. eauto.
  - unfold removePredecessor. rewrite bind_unfold. unfold load at 1.
    destruct (s !! this) as [n|] eqn:Hn; [|done].
    case_bool_decide as Hlt; [|done].
    rewrite bind_unfold, (bi_updPredecessors_eq _ _ _ _ Hn).
    cbn. intros [= <- <-].
    exists n. repeat split; try done.
    + by rewrite lookup_insert_eq.
    + intros p Hp. by rewrite lookup_insert_ne.
    + intros p m Hm. destruct (decide (p = this)) as [->|Hp].
      * rewrite lookup_insert_eq. eexists; split; [done|]. cbn. congruence.
      * rewrite lookup_insert_ne by done. eauto.
Qed.

End BidirectionalTheory.

Lemma addPredecessor_appends_predecessor_twice_witness :
  ∃ t, Bidirectional.addPredecessor 1 0 7 Examples.bi_isolated2 = Returns tt t
    ∧ t !! 0 = Some (Bidirectional.mkNode ([] ++ [Bidirectional.mkEdge 1 7]) [])
    ∧ t !! 1 = Some (Bidirectional.mkNode []
                       ([] ++ [Bidirectional.mkEdge 0 7; Bidirectional.mkEdge 0 7]))
    ∧ ∀ p, p ≠ 0 → p ≠ 1 → t !! p = Examples.bi_isolated2 !! p.
Proof.
  apply (addPredecessor_appends_predecessor_twice Examples.bi_isolated2 0 1 7
           (Bidirectional.mkNode [] []) (Bidirectional.mkNode [] [])).
  - lia.
  - reflexivity.
  - reflexivity.
Defined.

Lemma remove_touches_one_side_only_witness :
  let s' := <[0 := Bidirectional.mkNode [] []]> Examples.bi_linked2 in
  Bidirectional.removeSuccessor 0 0 Examples.bi_linked2 = Returns 0 s'
  ∧ ∃ n, Examples.bi_linked2 !! 0 = Some n
      ∧ 0 < length (Bidirectional.Successors n) ∧ 0 = 0
      ∧ s' !! 0 = Some (Bidirectional.mkNode
                          (erase 0 (Bidirectional.Successors n))
                          (Bidirectional.Predecessors n))
      ∧ (∀ p, p ≠ 0 → s' !! p = Examples.bi_linked2 !! p)
      ∧ (∀ p m, Examples.bi_linked2 !! p = Some m →
           ∃ m', s' !! p = Some m'
             ∧ Bidirectional.Predecessors m' = Bidirectional.Predecessors m).
Proof.
  intros s'.
  assert (Bidirectional.removeSuccessor 0 0 Examples.bi_linked2 = Returns 0 s')
    as H by (vm_compute; reflexivity).
  split; [exact H|].
  exact (proj1 (remove_touches_one_side_only Examples.bi_linked2 0 0 0 s') H).
Defined.

(** ** MutableEdgeNode *)

Section MutableEdgeTheory.
Import MutableEdge.
Context {EdgeLabel : Type}.
Implicit Types (s : memory EdgeLabel) (σ : gmap nat MutableEdgeNode).
Implicit Types (n m : MutableEdgeNode) (h : gmap nat EdgeLabel).

(** *** Stepping through the primitives *)

Lemma load_eq s p n : nodes s !! p = Some n → load p s = Returns n s.
Proof. unfold load. by intros ->. Qed.

Lemma load_dangling s p : nodes s !! p = None → load p s = Undefined.
Proof. unfold load. by intros ->. Qed.

Lemma insert_as_alter σ p n (g : MutableEdgeNode → MutableEdgeNode) :
  σ !! p = Some n → <[p := g n]> σ = alter g p σ.
Proof.
  intros Hp. apply map_eq. intros i. rewrite lookup_alter, lookup_insert.
  case_decide; subst; by rewrite ?Hp.
Qed.

Lemma updSuccessors_eq s p f :
  is_Some (nodes s !! p) →
  updSuccessors p f s
  = Returns tt (mkMemory (mapSuccessors p f (nodes s)) (labels s)).
Proof.
  intros [n Hn]. unfold updSuccessors, mapSuccessors.
  rewrite bind_unfold, (load_eq _ _ _ Hn). unfold store.
  by rewrite <-(insert_as_alter _ _ n).
Qed.

Lemma updPredecessors_eq s p f :
  is_Some (nodes s !! p) →
  updPredecessors p f s
  = Returns tt (mkMemory (mapPredecessors p f (nodes s)) (labels s)).
Proof.
  intros [n Hn]. unfold updPredecessors, mapPredecessors.
  rewrite bind_unfold, (load_eq _ _ _ Hn). unfold store.
  by rewrite <-(insert_as_alter _ _ n).
Qed.

Lemma destroy_eq s E :
  destroy E s = Returns tt (mkMemory (nodes s) (release (OLabel E) (labels s))).
Proof. unfold destroy, release. destruct (OLabel E); [done|by destruct s]. Qed.

(** *** Reading the vectors of an updated node map *)

Lemma mapSuccessors_is_Some σ p f a :
  is_Some (mapSuccessors p f σ !! a) ↔ is_Some (σ !! a).
Proof. apply lookup_alter_is_Some. Qed.

Lemma mapPredecessors_is_Some σ p f a :
  is_Some (mapPredecessors p f σ !! a) ↔ is_Some (σ !! a).
Proof. apply lookup_alter_is_Some. Qed.

Lemma succs_mapSuccessors σ p f a :
  is_Some (σ !! p) →
  succs (mapSuccessors p f σ) a
  = if decide (a = p) then f (succs σ a) else succs σ a.
Proof.
  intros [n Hn]. unfold succs, mapSuccessors. rewrite lookup_alter.
  case_decide; case_decide; subst; try done. by rewrite Hn.
Qed.

Lemma preds_mapSuccessors σ p f a :
  preds (mapSuccessors p f σ) a = preds σ a.
Proof.
  unfold preds, mapSuccessors. rewrite lookup_alter.
  case_decide; subst; [|done]. by destruct (σ !! a).
Qed.

Lemma preds_mapPredecessors σ p f a :
  is_Some (σ !! p) →
  preds (mapPredecessors p f σ) a
  = if decide (a = p) then f (preds σ a) else preds σ a.
Proof.
  intros [n Hn]. unfold preds, mapPredecessors. rewrite lookup_alter.
  case_decide; case_decide; subst; try done. by rewrite Hn.
Qed.

Lemma succs_mapPredecessors σ p f a :
  succs (mapPredecessors p f σ) a = succs σ a.
Proof.
  unfold succs, mapPredecessors. rewrite lookup_alter.
  case_decide; subst; [|done]. by destruct (σ !! a).
Qed.

Lemma succs_lookup σ a n : σ !! a = Some n → succs σ a = Successors n.
Proof. unfold succs. by intros ->. Qed.

Lemma preds_lookup σ a n : σ !! a = Some n → preds σ a = Predecessors n.
Proof. unfold preds. by intros ->. Qed.

Lemma succs_elem_allocated σ a e : e ∈ succs σ a → is_Some (σ !! a).
Proof. unfold succs. destruct (σ !! a); [eauto|]. by intros ?%elem_of_nil. Qed.

Lemma preds_elem_allocated σ a v : v ∈ preds σ a → is_Some (σ !! a).
Proof. unfold preds. destruct (σ !! a); [eauto|]. by intros ?%elem_of_nil. Qed.

(** *** The searches *)

Lemma findSuccessorImpl_end n S :
  findSuccessorImpl n S = length (Successors n)
  ↔ ∀ e, e ∈ Successors n → ONeighbor e ≠ S.
Proof.
  unfold findSuccessorImpl. rewrite find_if_end.
  split; intros H e He; specialize (H e He).
  - by apply bool_decide_eq_false in H.
  - by apply bool_decide_eq_false.
Qed.

Lemma findPredecessorImpl_end n P :
  findPredecessorImpl n P = length (Predecessors n)
  ↔ ∀ v, v ∈ Predecessors n → VNeighbor v ≠ P.
Proof.
  unfold findPredecessorImpl. rewrite find_if_end.
  split; intros H e He; specialize (H e He).
  - by apply bool_decide_eq_false in H.
  - by apply bool_decide_eq_false.
Qed.

Lemma findSuccessorImpl_found n S :
  findSuccessorImpl n S ≠ length (Successors n) →
  ∃ e, Successors n !! findSuccessorImpl n S = Some e ∧ ONeighbor e = S.
Proof.
  intros (e & He & HP)%find_if_found. exists e. split; [done|].
  by apply bool_decide_eq_true in HP.
Qed.

Lemma findPredecessorImpl_found n P :
  findPredecessorImpl n P ≠ length (Predecessors n) →
  ∃ v, Predecessors n !! findPredecessorImpl n P = Some v ∧ VNeighbor v = P.
Proof.
  intros (e & He & HP)%find_if_found. exists e. split; [done|].
  by apply bool_decide_eq_true in HP.
Qed.

Lemma hasSuccessor_eq s this S n :
  nodes s !! this = Some n →
  hasSuccessor this S s
  = Returns (negb (bool_decide (findSuccessorImpl n S = length (Successors n)))) s.
Proof. intros Hn. unfold hasSuccessor. by rewrite bind_unfold, (load_eq _ _ _ Hn). Qed.

Lemma hasPredecessor_eq s this P n :
  nodes s !! this = Some n →
  hasPredecessor this P s
  = Returns (negb (bool_decide (findPredecessorImpl n P = length (Predecessors n)))) s.
Proof. intros Hn. unfold hasPredecessor. by rewrite bind_unfold, (load_eq _ _ _ Hn). Qed.

(** [hasSuccessor] in terms of the records held. *)
Lemma hasSuccessor_true s this S :
  hasSuccessor this S s = Returns true s
  ↔ ∃ e, e ∈ succs (nodes s) this ∧ ONeighbor e = S.
Proof.
  unfold hasSuccessor, succs. rewrite bind_unfold. unfold load.
  destruct (nodes s !! this) as [n|] eqn:Hn; cbn.
  - case_bool_decide as Hf; cbn.
    + split; [done|]. intros (e & He & HS).
      by destruct (proj1 (findSuccessorImpl_end n S) Hf e He).
    + split; [intros _|done].
      apply findSuccessorImpl_found in Hf as (e & He & HS).
      exists e. split; [|done]. by eapply list_elem_of_lookup_2.
  - split; [done|]. by intros (e & ?%elem_of_nil & _).
Qed.

Lemma hasSuccessor_false s this S :
  is_Some (nodes s !! this) →
  hasSuccessor this S s = Returns false s
  ↔ ∀ e, e ∈ succs (nodes s) this → ONeighbor e ≠ S.
Proof.
  intros [n Hn]. rewrite (hasSuccessor_eq _ _ _ _ Hn), (succs_lookup _ _ _ Hn).
  rewrite <-findSuccessorImpl_end. case_bool_decide; cbn; split; congruence.
Qed.

Lemma hasPredecessor_true s this P :
  hasPredecessor this P s = Returns true s
  ↔ ∃ v, v ∈ preds (nodes s) this ∧ VNeighbor v = P.
Proof.
  unfold hasPredecessor, preds. rewrite bind_unfold. unfold load.
  destruct (nodes s !! this) as [n|] eqn:Hn; cbn.
  - case_bool_decide as Hf; cbn.
    + split; [done|]. intros (e & He & HS).
      by destruct (proj1 (findPredecessorImpl_end n P) Hf e He).
    + split; [intros _|done].
      apply findPredecessorImpl_found in Hf as (e & He & HS).
      exists e. split; [|done]. by eapply list_elem_of_lookup_2.
  - split; [done|]. by intros (e & ?%elem_of_nil & _).
Qed.

Lemma hasPredecessor_false s this P :
  is_Some (nodes s !! this) →
  hasPredecessor this P s = Returns false s
  ↔ ∀ v, v ∈ preds (nodes s) this → VNeighbor v ≠ P.
Proof.
  intros [n Hn]. rewrite (hasPredecessor_eq _ _ _ _ Hn), (preds_lookup _ _ _ Hn).
  rewrite <-findPredecessorImpl_end. case_bool_decide; cbn; split; congruence.
Qed.

(** *** Checking the invariant *)

Lemma wf_alt σ : wf σ ↔ map_Forall (wf_node σ) σ.
Proof.
  split.
  - intros [HndS HndP Hmir] a n Hn. unfold wf_node.
    specialize (HndS a). specialize (HndP a).
    rewrite (succs_lookup _ _ _ Hn) in HndS.
    rewrite (preds_lookup _ _ _ Hn) in HndP.
    split; [done|]. split; [done|]. split.
    + apply Forall_forall. intros [b l] He. cbn. apply Hmir.
      by rewrite (succs_lookup _ _ _ Hn).
    + apply Forall_forall. intros [b l] He. cbn. apply Hmir.
      by rewrite (preds_lookup _ _ _ Hn).
  - intros Hall. split.
    + intros a. unfold succs. destruct (σ !! a) as [n|] eqn:Hn.
      * apply (Hall a n Hn).
      * apply NoDup_nil_2.
    + intros a. unfold preds. destruct (σ !! a) as [n|] eqn:Hn.
      * apply (Hall a n Hn).
      * apply NoDup_nil_2.
    + intros a b l. split.
      * intros He. destruct (succs_elem_allocated _ _ _ He) as [n Hn].
        rewrite (succs_lookup _ _ _ Hn) in He.
        destruct (Hall a n Hn) as (_ & _ & HS & _).
        rewrite Forall_forall in HS. apply (HS _ He).
      * intros Hv. destruct (preds_elem_allocated _ _ _ Hv) as [n Hn].
        rewrite (preds_lookup _ _ _ Hn) in Hv.
        destruct (Hall b n Hn) as (_ & _ & _ & HP).
        rewrite Forall_forall in HP. apply (HP _ Hv).
Qed.

#[global] Instance wf_dec σ : Decision (wf σ).
Proof.
  refine (cast_if (decide (map_Forall (wf_node σ) σ))); by rewrite wf_alt.
Defined.

Lemma wf_empty : wf (∅ : gmap nat MutableEdgeNode).
Proof. apply wf_alt, map_Forall_empty. Qed.

(** *** Removing one edge *)

Ltac alloc :=
  repeat first
    [ apply mapSuccessors_is_Some | apply mapPredecessors_is_Some ];
  eauto.

(** The store after [removeSuccessorImpl] went all the way. *)
Lemma removeSuccessorImpl_eq s this It n E m :
  nodes s !! this = Some n →
  Successors n !! It = Some E →
  nodes s !! ONeighbor E = Some m →
  findPredecessorImpl m this ≠ length (Predecessors m) →
  removeSuccessorImpl this It s
  = Returns It
      (mkMemory
         (mapSuccessors this pop_back
            (mapSuccessors this (swap_with_back It)
               (mapPredecessors (ONeighbor E)
                  (λ l, pop_back (swap_with_back (findPredecessorImpl m this) l))
                  (nodes s))))
         (release (OLabel E) (labels s))).
Proof.
  intros Hn HE Hm Hfind. unfold removeSuccessorImpl.
  rewrite bind_unfold, (load_eq _ _ _ Hn).
  case_bool_decide as Hnil; [by rewrite Hnil in HE|].
  rewrite bind_unfold. unfold deref. rewrite HE. cbn.
  rewrite bind_unfold, (load_eq _ _ _ Hm).
  case_bool_decide as Hnil'.
  { destruct Hfind. unfold findPredecessorImpl. by rewrite Hnil'. }
  rewrite bind_unfold. rewrite bool_decide_eq_false_2 by done. cbn.
  rewrite bind_unfold, updPredecessors_eq by eauto.
  rewrite bind_unfold, updSuccessors_eq by (cbn; alloc).
  rewrite bind_unfold, destroy_eq. cbn.
  rewrite bind_unfold, updSuccessors_eq by (cbn; alloc).
  done.
Qed.

Lemma removePredecessorImpl_eq s this It n E m O :
  nodes s !! this = Some n →
  Predecessors n !! It = Some E →
  nodes s !! VNeighbor E = Some m →
  Successors m !! findSuccessorImpl m this = Some O →
  removePredecessorImpl this It s
  = Returns It
      (mkMemory
         (mapPredecessors this (λ l, pop_back (swap_with_back It l))
            (mapSuccessors (VNeighbor E) pop_back
               (mapSuccessors (VNeighbor E)
                  (swap_with_back (findSuccessorImpl m this))
                  (nodes s))))
         (release (OLabel O) (labels s))).
Proof.
  intros Hn HE Hm HO. unfold removePredecessorImpl.
  rewrite bind_unfold, (load_eq _ _ _ Hn).
  case_bool_decide as Hnil; [by rewrite Hnil in HE|].
  rewrite bind_unfold. unfold deref at 1. rewrite HE. cbn.
  rewrite bind_unfold, (load_eq _ _ _ Hm).
  case_bool_decide as Hnil'; [by rewrite Hnil' in HO|].
  rewrite bind_unfold.
  rewrite bool_decide_eq_false_2 by (apply lookup_lt_Some in HO; lia). cbn.
  rewrite bind_unfold. unfold deref. rewrite HO. cbn.
  rewrite bind_unfold, updSuccessors_eq by eauto.
  rewrite bind_unfold, destroy_eq. cbn.
  rewrite bind_unfold, updSuccessors_eq by (cbn; alloc).
  rewrite bind_unfold, updPredecessors_eq by (cbn; alloc).
  done.
Qed.

Lemma edge_removed_intro σ σ' A B i j eS eP :
  wf σ →
  succs σ A !! i = Some eS → ONeighbor eS = B →
  preds σ B !! j = Some eP → VNeighbor eP = A →
  (∀ a, is_Some (σ' !! a) ↔ is_Some (σ !! a)) →
  (∀ a, succs σ' a
        = if decide (a = A) then pop_back (swap_with_back i (succs σ a))
          else succs σ a) →
  (∀ b, preds σ' b
        = if decide (b = B) then pop_back (swap_with_back j (preds σ b))
          else preds σ b) →
  edge_removed A B σ σ'.
Proof.
  intros [HndS HndP Hmir] HeS HB HeP HA Halloc HS HP. split.
  - done.
  - intros a e. rewrite HS. case_decide as Ha.
    + subst a. rewrite (swap_pop_elem_of_NoDup ONeighbor _ _ _ _ HeS (HndS A)).
      rewrite HB. intuition congruence.
    + intuition congruence.
  - intros b v. rewrite HP. case_decide as Hb.
    + subst b. rewrite (swap_pop_elem_of_NoDup VNeighbor _ _ _ _ HeP (HndP B)).
      rewrite HA. intuition congruence.
    + intuition congruence.
  - intros a. rewrite HS. case_decide as Ha; [|done]. subst a.
    by rewrite <-(swap_pop_length _ _ _ HeS).
  - intros b. rewrite HP. case_decide as Hb; [|done]. subst b.
    by rewrite <-(swap_pop_length _ _ _ HeP).
  - intros a. rewrite HS. case_decide as Ha; [|done]. subst a.
    by eapply swap_pop_NoDup.
  - intros b. rewrite HP. case_decide as Hb; [|done]. subst b.
    by eapply swap_pop_NoDup.
Qed.

(** Taking a whole edge out keeps the invariant. *)
Lemma edge_removed_wf σ σ' A B : wf σ → edge_removed A B σ σ' → wf σ'.
Proof.
  intros [HndS HndP Hmir] [Halloc HS HP _ _ HndS' HndP']. split; [done..|].
  intros a b l. rewrite HS, HP, Hmir. cbn. intuition congruence.
Qed.

(** In a well-formed store the far half of a successor record is
    there to be found. *)
Lemma wf_far_predecessor σ this n E :
  wf σ → σ !! this = Some n → E ∈ Successors n →
  ∃ m v, σ !! ONeighbor E = Some m
    ∧ findPredecessorImpl m this ≠ length (Predecessors m)
    ∧ Predecessors m !! findPredecessorImpl m this = Some v
    ∧ VNeighbor v = this.
Proof.
  intros Hwf Hn HE.
  assert (mkNonOwningEdge this (OLabel E) ∈ preds σ (ONeighbor E)) as Hv.
  { apply (wf_mirror _ Hwf). rewrite (succs_lookup _ _ _ Hn). by destruct E. }
  destruct (preds_elem_allocated _ _ _ Hv) as [m Hm].
  rewrite (preds_lookup _ _ _ Hm) in Hv.
  assert (findPredecessorImpl m this ≠ length (Predecessors m)) as Hf.
  { intros Hf. by apply (proj1 (findPredecessorImpl_end _ _) Hf _ Hv). }
  destruct (findPredecessorImpl_found _ _ Hf) as (v & Hv' & Hvn).
  by exists m, v.
Qed.

Lemma wf_far_successor σ this n E :
  wf σ → σ !! this = Some n → E ∈ Predecessors n →
  ∃ m O, σ !! VNeighbor E = Some m
    ∧ Successors m !! findSuccessorImpl m this = Some O
    ∧ ONeighbor O = this ∧ OLabel O = VLabel E.
Proof.
  intros Hwf Hn HE.
  assert (mkOwningEdge this (VLabel E) ∈ succs σ (VNeighbor E)) as Hv.
  { apply (wf_mirror _ Hwf). rewrite (preds_lookup _ _ _ Hn). by destruct E. }
  destruct (succs_elem_allocated _ _ _ Hv) as [m Hm].
  rewrite (succs_lookup _ _ _ Hm) in Hv.
  assert (findSuccessorImpl m this ≠ length (Successors m)) as Hf.
  { intros Hf. by apply (proj1 (findSuccessorImpl_end _ _) Hf _ Hv). }
  destruct (findSuccessorImpl_found _ _ Hf) as (O & HO & HOn).
  exists m, O. repeat split; try done.
  (* the record found is the mirror itself: neighbours are unique *)
  pose proof (wf_succs_NoDup _ Hwf (VNeighbor E)) as Hnd.
  rewrite (succs_lookup _ _ _ Hm) in Hnd.
  apply list_elem_of_lookup_1 in Hv as [j Hj].
  assert (findSuccessorImpl m this = j) as <-.
  { eapply NoDup_lookup; [exact Hnd| |].
    - by rewrite list_lookup_fmap, HO.
    - rewrite list_lookup_fmap, Hj. cbn. by rewrite HOn. }
  rewrite HO in Hj. by injection Hj as ->.
Qed.

Lemma shrunk_refl σ : shrunk σ σ.
Proof. by split. Qed.

Lemma shrunk_trans σ1 σ2 σ3 : shrunk σ1 σ2 → shrunk σ2 σ3 → shrunk σ1 σ3.
Proof.
  intros [Ha1 Hs1 Hp1 Hsl1 Hpl1] [Ha2 Hs2 Hp2 Hsl2 Hpl2]. split.
  - intros a. by rewrite Ha2.
  - eauto.
  - eauto.
  - intros a. etrans; [apply Hsl2|apply Hsl1].
  - intros a. etrans; [apply Hpl2|apply Hpl1].
Qed.

Lemma edge_removed_shrunk σ σ' A B : edge_removed A B σ σ' → shrunk σ σ'.
Proof.
  intros [Halloc HS HP HSl HPl _ _]. split.
  - done.
  - intros a e. rewrite HS. tauto.
  - intros a v. rewrite HP. tauto.
  - intros a. rewrite HSl. case_decide; lia.
  - intros a. rewrite HPl. case_decide; lia.
Qed.

(** [removeSuccessorImpl] on a dereferenceable iterator, in a
    well-formed store: it returns the iterator it was given, the edge
    is gone on both sides, the label is released. *)
Lemma removeSuccessorImpl_spec s this It n E :
  wf (nodes s) → nodes s !! this = Some n → Successors n !! It = Some E →
  ∃ s', removeSuccessorImpl this It s = Returns It s'
    ∧ edge_removed this (ONeighbor E) (nodes s) (nodes s')
    ∧ labels s' = release (OLabel E) (labels s).
Proof.
  intros Hwf Hn HE.
  destruct (wf_far_predecessor _ _ _ E Hwf Hn) as (m & v & Hm & Hf & Hv & Hvn).
  { by eapply list_elem_of_lookup_2. }
  rewrite (removeSuccessorImpl_eq _ _ _ _ _ _ Hn HE Hm Hf).
  eexists. split; [done|]. split; [|done]. cbn.
  eapply (edge_removed_intro _ _ _ _ It (findPredecessorImpl m this) E v);
    try done.
  - by rewrite (succs_lookup _ _ _ Hn).
  - by rewrite (preds_lookup _ _ _ Hm).
  - intros a. by rewrite !mapSuccessors_is_Some, mapPredecessors_is_Some.
  - intros a. rewrite !succs_mapSuccessors by alloc.
    rewrite succs_mapPredecessors. by case_decide.
  - intros b. rewrite !preds_mapSuccessors.
    by rewrite preds_mapPredecessors by eauto.
Qed.

Lemma removePredecessorImpl_spec s this It n E :
  wf (nodes s) → nodes s !! this = Some n → Predecessors n !! It = Some E →
  ∃ s', removePredecessorImpl this It s = Returns It s'
    ∧ edge_removed (VNeighbor E) this (nodes s) (nodes s')
    ∧ labels s' = release (VLabel E) (labels s).
Proof.
  intros Hwf Hn HE.
  destruct (wf_far_successor _ _ _ E Hwf Hn) as (m & O & Hm & HO & HOn & HOl).
  { by eapply list_elem_of_lookup_2. }
  rewrite (removePredecessorImpl_eq _ _ _ _ _ _ _ Hn HE Hm HO).
  eexists. split; [done|]. split; [|by rewrite HOl]. cbn.
  eapply (edge_removed_intro _ _ _ _ (findSuccessorImpl m this) It O E);
    try done.
  - by rewrite (succs_lookup _ _ _ Hm).
  - by rewrite (preds_lookup _ _ _ Hn).
  - intros a. by rewrite mapPredecessors_is_Some, !mapSuccessors_is_Some.
  - intros a. rewrite succs_mapPredecessors.
    rewrite !succs_mapSuccessors by alloc. by case_decide.
  - intros b. rewrite preds_mapPredecessors by alloc.
    by rewrite !preds_mapSuccessors.
Qed.

(** *** The loops of [disconnect] *)

Lemma disconnect_successors_spec fuel : ∀ s this,
  wf (nodes s) → is_Some (nodes s !! this) →
  length (succs (nodes s) this) < fuel →
  ∃ s', disconnect_successors fuel this 0 s = Returns tt s'
    ∧ wf (nodes s') ∧ shrunk (nodes s) (nodes s')
    ∧ succs (nodes s') this = [].
Proof.
  induction fuel as [|fuel IH]; intros s this Hwf [n Hn] Hlen; [lia|].
  rewrite (succs_lookup _ _ _ Hn) in Hlen. simpl.
  rewrite bind_unfold, (load_eq _ _ _ Hn).
  case_bool_decide as Hend.
  - exists s. split; [done|]. split; [done|]. split; [apply shrunk_refl|].
    rewrite (succs_lookup _ _ _ Hn). by apply nil_length_inv.
  - destruct (Successors n) as [|E l] eqn:HS; [done|].
    destruct (removeSuccessorImpl_spec s this 0 n E Hwf Hn)
      as (s1 & Hrun & Hrem & _); [by rewrite HS|].
    rewrite bind_unfold, Hrun.
    destruct (IH s1 this) as (s' & Hrun' & Hwf' & Hsh & Hnil).
    + by eapply edge_removed_wf.
    + apply (er_allocated _ _ _ _ Hrem). eauto.
    + rewrite (er_succs_length _ _ _ _ Hrem), decide_True by done.
      rewrite (succs_lookup _ _ _ Hn), HS. simpl in *. lia.
    + exists s'. split; [done|]. split; [done|]. split; [|done].
      eapply shrunk_trans; [by eapply edge_removed_shrunk|done].
Qed.

Lemma disconnect_predecessors_spec fuel : ∀ s this,
  wf (nodes s) → is_Some (nodes s !! this) →
  length (preds (nodes s) this) < fuel →
  ∃ s', disconnect_predecessors fuel this 0 s = Returns tt s'
    ∧ wf (nodes s') ∧ shrunk (nodes s) (nodes s')
    ∧ preds (nodes s') this = [].
Proof.
  induction fuel as [|fuel IH]; intros s this Hwf [n Hn] Hlen; [lia|].
  rewrite (preds_lookup _ _ _ Hn) in Hlen. simpl.
  rewrite bind_unfold, (load_eq _ _ _ Hn).
  case_bool_decide as Hend.
  - exists s. split; [done|]. split; [done|]. split; [apply shrunk_refl|].
    rewrite (preds_lookup _ _ _ Hn). by apply nil_length_inv.
  - destruct (Predecessors n) as [|E l] eqn:HS; [done|].
    destruct (removePredecessorImpl_spec s this 0 n E Hwf Hn)
      as (s1 & Hrun & Hrem & _); [by rewrite HS|].
    rewrite bind_unfold, Hrun.
    destruct (IH s1 this) as (s' & Hrun' & Hwf' & Hsh & Hnil).
    + by eapply edge_removed_wf.
    + apply (er_allocated _ _ _ _ Hrem). eauto.
    + rewrite (er_preds_length _ _ _ _ Hrem), decide_True by done.
      rewrite (preds_lookup _ _ _ Hn), HS. simpl in *. lia.
    + exists s'. split; [done|]. split; [done|]. split; [|done].
      eapply shrunk_trans; [by eapply edge_removed_shrunk|done].
Qed.

Lemma disconnect_spec fuel s N :
  wf (nodes s) → is_Some (nodes s !! N) →
  length (succs (nodes s) N) < fuel → length (preds (nodes s) N) < fuel →
  ∃ s', disconnect fuel N s = Returns N s'
    ∧ wf (nodes s') ∧ shrunk (nodes s) (nodes s')
    ∧ succs (nodes s') N = [] ∧ preds (nodes s') N = [].
Proof.
  intros Hwf HN HlenS HlenP. unfold disconnect.
  destruct (disconnect_successors_spec fuel s N Hwf HN HlenS)
    as (s1 & Hrun1 & Hwf1 & Hsh1 & Hnil1).
  rewrite bind_unfold, Hrun1.
  destruct (disconnect_predecessors_spec fuel s1 N Hwf1)
    as (s2 & Hrun2 & Hwf2 & Hsh2 & Hnil2).
  { by apply (sh_allocated _ _ Hsh1). }
  { eapply Nat.le_lt_trans; [apply (sh_preds_length _ _ Hsh1)|done]. }
  rewrite bind_unfold, Hrun2.
  exists s2. split; [done|]. split; [done|].
  split; [by eapply shrunk_trans|]. split; [|done].
  pose proof (sh_succs_length _ _ Hsh2 N) as Hle. rewrite Hnil1 in Hle.
  apply nil_length_inv. simpl in Hle. lia.
Qed.

(** A node without predecessor records is nobody's successor, and a
    node without successor records is nobody's predecessor. *)
Lemma wf_isolated σ N :
  wf σ → succs σ N = [] → preds σ N = [] →
  ∀ a, (∀ e, e ∈ succs σ a → ONeighbor e ≠ N)
     ∧ (∀ v, v ∈ preds σ a → VNeighbor v ≠ N).
Proof.
  intros Hwf HS HP a. split.
  - intros [b l] He Hb. cbn in Hb. subst b.
    apply (wf_mirror _ Hwf) in He. rewrite HP in He. by apply elem_of_nil in He.
  - intros [b l] Hv Hb. cbn in Hb. subst b.
    apply (wf_mirror _ Hwf) in Hv. rewrite HS in Hv. by apply elem_of_nil in Hv.
Qed.

Lemma hasSuccessors_nil s N :
  is_Some (nodes s !! N) → succs (nodes s) N = [] →
  hasSuccessors N s = Returns false s.
Proof.
  intros [n Hn] Hnil. unfold hasSuccessors.
  rewrite bind_unfold, (load_eq _ _ _ Hn).
  rewrite (succs_lookup _ _ _ Hn) in Hnil. by rewrite Hnil.
Qed.

Lemma hasPredecessors_nil s N :
  is_Some (nodes s !! N) → preds (nodes s) N = [] →
  hasPredecessors N s = Returns false s.
Proof.
  intros [n Hn] Hnil. unfold hasPredecessors.
  rewrite bind_unfold, (load_eq _ _ _ Hn).
  rewrite (preds_lookup _ _ _ Hn) in Hnil. by rewrite Hnil.
Qed.

(** *** Adding one edge *)

Lemma constructEdge_eq lab s From To (L : EdgeLabel) :
  constructEdge lab From To L s
  = let l := if lab then Some (fresh (dom (labels s))) else None in
    Returns (mkOwningEdge To l, mkNonOwningEdge From l)
      (mkMemory (nodes s)
         (if lab then <[fresh (dom (labels s)) := L]> (labels s)
          else labels s)).
Proof. destruct lab; [done|by destruct s]. Qed.

(** What a returning [addSuccessor] did. *)
Lemma addSuccessor_Returns lab s A B (L : EdgeLabel) v s' :
  addSuccessor lab A B L s = Returns v s' →
  let l := if lab then Some (fresh (dom (labels s))) else None in
  is_Some (nodes s !! A) ∧ is_Some (nodes s !! B)
  ∧ (∀ e, e ∈ succs (nodes s) A → ONeighbor e ≠ B)
  ∧ v = mkEdgeView B l
  ∧ nodes s'
    = mapPredecessors B (emplace_back (mkNonOwningEdge A l))
        (mapSuccessors A (emplace_back (mkOwningEdge B l)) (nodes s))
  ∧ labels s'
    = if lab then <[fresh (dom (labels s)) := L]> (labels s) else labels s.
Proof.
  unfold addSuccessor. rewrite bind_unfold.
  destruct (nodes s !! A) as [nA|] eqn:HA.
  2: { unfold hasSuccessor. by rewrite bind_unfold, (load_dangling _ _ HA). }
  rewrite (hasSuccessor_eq _ _ _ _ HA).
  case_bool_decide as Hdup; [|done]. cbv beta iota.
  rewrite findSuccessorImpl_end in Hdup.
  rewrite bind_unfold. cbn [negb]. rewrite revng_assert_true.
  rewrite bind_unfold, constructEdge_eq. cbv beta iota zeta.
  rewrite bind_unfold, updSuccessors_eq by (cbn; eauto).
  destruct (nodes s !! B) as [nB|] eqn:HB.
  - rewrite bind_unfold, updPredecessors_eq by (cbn; alloc).
    intros [= <- <-]. cbn.
    rewrite (succs_lookup _ _ _ HA). eauto 10.
  - rewrite bind_unfold. unfold updPredecessors.
    rewrite bind_unfold, load_dangling; [done|].
    cbn. apply eq_None_not_Some. rewrite mapSuccessors_is_Some, HB.
    by intros [? ?].
Qed.

Lemma addPredecessor_Returns lab s this P (L : EdgeLabel) v s' :
  addPredecessor lab this P L s = Returns v s' →
  let l := if lab then Some (fresh (dom (labels s))) else None in
  is_Some (nodes s !! this) ∧ is_Some (nodes s !! P)
  ∧ (∀ e, e ∈ preds (nodes s) this → VNeighbor e ≠ P)
  ∧ v = mkEdgeView this l
  ∧ nodes s'
    = mapPredecessors this (emplace_back (mkNonOwningEdge P l))
        (mapSuccessors P (emplace_back (mkOwningEdge this l)) (nodes s))
  ∧ labels s'
    = if lab then <[fresh (dom (labels s)) := L]> (labels s) else labels s.
Proof.
  unfold addPredecessor. rewrite bind_unfold.
  destruct (nodes s !! this) as [n|] eqn:Hn.
  2: { unfold hasPredecessor. by rewrite bind_unfold, (load_dangling _ _ Hn). }
  rewrite (hasPredecessor_eq _ _ _ _ Hn).
  case_bool_decide as Hdup; [|done]. cbv beta iota.
  rewrite findPredecessorImpl_end in Hdup.
  rewrite bind_unfold. cbn [negb]. rewrite revng_assert_true.
  rewrite bind_unfold, constructEdge_eq. cbv beta iota zeta.
  destruct (nodes s !! P) as [nP|] eqn:HP.
  - rewrite bind_unfold, updSuccessors_eq by (cbn; eauto).
    rewrite bind_unfold, updPredecessors_eq by (cbn; alloc).
    intros [= <- <-]. cbn.
    rewrite (preds_lookup _ _ _ Hn). eauto 10.
  - rewrite bind_unfold. unfold updSuccessors.
    by rewrite bind_unfold, load_dangling.
Qed.

(** [addSuccessor] returns whenever both nodes are there and the edge
    is not. *)
Lemma addSuccessor_ok lab s A B (L : EdgeLabel) :
  is_Some (nodes s !! A) → is_Some (nodes s !! B) →
  (∀ e, e ∈ succs (nodes s) A → ONeighbor e ≠ B) →
  ∃ v s', addSuccessor lab A B L s = Returns v s'.
Proof.
  intros [nA HA] HB Hnew. unfold addSuccessor.
  rewrite bind_unfold, (hasSuccessor_eq _ _ _ _ HA).
  rewrite (succs_lookup _ _ _ HA), <-findSuccessorImpl_end in Hnew.
  rewrite (bool_decide_eq_true_2 _ Hnew). cbn [negb].
  rewrite bind_unfold, revng_assert_true.
  rewrite bind_unfold, constructEdge_eq. cbv beta iota zeta.
  rewrite bind_unfold, updSuccessors_eq by (cbn; eauto).
  rewrite bind_unfold, updPredecessors_eq by (cbn; alloc).
  by eexists _, _.
Qed.

(** Adding both halves of an edge that was not there keeps the
    invariant. *)
Lemma edge_added_wf σ A B l :
  wf σ → is_Some (σ !! A) → is_Some (σ !! B) →
  (∀ e, e ∈ succs σ A → ONeighbor e ≠ B) →
  wf (mapPredecessors B (emplace_back (mkNonOwningEdge A l))
        (mapSuccessors A (emplace_back (mkOwningEdge B l)) σ)).
Proof.
  intros [HndS HndP Hmir] HA HB Hnew.
  assert (∀ v, v ∈ preds σ B → VNeighbor v ≠ A) as Hnew'.
  { intros [a l'] Hv Ha. cbn in Ha. subst a.
    apply Hmir in Hv. by apply (Hnew _ Hv). }
  split.
  - intros a. rewrite succs_mapPredecessors, succs_mapSuccessors by done.
    case_decide as Ha; [|done]. subst a. unfold emplace_back.
    rewrite fmap_app. apply NoDup_app. split; [done|]. split.
    + intros b (e & -> & He)%list_elem_of_fmap_1 Hb.
      apply list_elem_of_singleton in Hb. by apply (Hnew _ He).
    + apply NoDup_singleton.
  - intros b. rewrite preds_mapPredecessors by alloc.
    rewrite preds_mapSuccessors.
    case_decide as Hb; [|done]. subst b. unfold emplace_back.
    rewrite fmap_app. apply NoDup_app. split; [done|]. split.
    + intros a (v & -> & Hv)%list_elem_of_fmap_1 Ha.
      apply list_elem_of_singleton in Ha. by apply (Hnew' _ Hv).
    + apply NoDup_singleton.
  - intros a b l'.
    rewrite succs_mapPredecessors, succs_mapSuccessors by done.
    rewrite preds_mapPredecessors by alloc. rewrite preds_mapSuccessors.
    unfold emplace_back.
    destruct (decide (a = A)) as [->|Ha], (decide (b = B)) as [->|Hb];
      rewrite ?elem_of_app, ?list_elem_of_singleton, Hmir;
      intuition congruence.
Qed.

(** *** Adding, removing and disconnecting *)

(** C1: after a returning [A.addSuccessor(B, L)], [A.hasSuccessor(B)]
    and [B.hasPredecessor(A)] are true, and the record appended to
    [A]'s successors and the record appended to [B]'s predecessors hold
    the same label pointer.  On labeled edges that pointer is the one
    label allocated by the call, holding [L]; unlabeled edges allocate
    nothing.  It is also the pointer every record from [A] to [B] holds
    and, in a well-formed store, every record from [B] back to [A]. *)
Theorem addSuccessor_mirrored lab s A B (L : EdgeLabel) v s' :
  addSuccessor lab A B L s = Returns v s' →
  hasSuccessor A B s' = Returns true s'
  ∧ hasPredecessor B A s' = Returns true s'
  ∧ ∃ l : option nat,
      last (succs (nodes s') A) = Some (mkOwningEdge B l)
      ∧ last (preds (nodes s') B) = Some (mkNonOwningEdge A l)
      ∧ v = mkEdgeView B l
      ∧ (if lab
         then ∃ p, l = Some p ∧ labels s !! p = None
                ∧ labels s' = <[p := L]> (labels s)
         else l = None ∧ labels s' = labels s)
      ∧ (∀ e, e ∈ succs (nodes s') A → ONeighbor e = B → OLabel e = l)
      ∧ (wf (nodes s) →
           (∀ e, e ∈ preds (nodes s') B → VNeighbor e = A → VLabel e = l)
           ∧ wf (nodes s')).
Proof.
  intros (HA & HB & Hnew & -> & Hnodes & Hlabels)%addSuccessor_Returns.
  set (l := if lab then Some (fresh (dom (labels s))) else None) in *.
  assert (succs (nodes s') A = succs (nodes s) A ++ [mkOwningEdge B l]) as HS.
  { rewrite Hnodes, succs_mapPredecessors, succs_mapSuccessors by done.
    by rewrite decide_True. }
  assert (preds (nodes s') B = preds (nodes s) B ++ [mkNonOwningEdge A l]) as HP.
  { rewrite Hnodes, preds_mapPredecessors by alloc.
    by rewrite decide_True, preds_mapSuccessors. }
  split; [|split].
  - apply hasSuccessor_true. exists (mkOwningEdge B l).
    split; [|done]. rewrite HS. apply elem_of_app. right. by left.
  - apply hasPredecessor_true. exists (mkNonOwningEdge A l).
    split; [|done]. rewrite HP. apply elem_of_app. right. by left.
  - exists l. rewrite HS, HP, !last_snoc.
    split; [done|]. split; [done|]. split; [done|]. split; [|split].
    + subst l. destruct lab; [|done].
      eexists. split; [done|]. split; [|done].
      apply not_elem_of_dom, is_fresh.
    + intros e [He| ->%list_elem_of_singleton]%elem_of_app HeB; [|done].
      by destruct (Hnew _ He).
    + intros Hwf. split; [|rewrite Hnodes; by apply edge_added_wf].
      intros e [He| ->%list_elem_of_singleton]%elem_of_app HeA; [|done].
      destruct e as [a l']. cbn in HeA. subst a.
      apply (wf_mirror _ Hwf) in He. by destruct (Hnew _ He).
Qed.

(** C3: when [A] already has a successor record for [B],
    [A.addSuccessor(B, L2)] dies in the duplicate-edge assertion, and
    the store at that point is the store the call started from. *)
Theorem addSuccessor_duplicate_aborts lab s A B (L2 : EdgeLabel) :
  hasSuccessor A B s = Returns true s →
  addSuccessor lab A B L2 s
  = Aborts "Only one edge is allowed between two nodes." s.
Proof.
  intros Hdup. unfold addSuccessor. rewrite bind_unfold, Hdup. done.
Qed.

(** C4: in a well-formed store where [A] has an edge to [B],
    [A.removeSuccessor(B)] returns, and afterwards [A.hasSuccessor(B)]
    and [B.hasPredecessor(A)] are both false. *)
Theorem removeSuccessor_removes_both_halves s A B :
  wf (nodes s) →
  hasSuccessor A B s = Returns true s →
  ∃ It s', removeSuccessor A B s = Returns It s'
    ∧ hasSuccessor A B s' = Returns false s'
    ∧ hasPredecessor B A s' = Returns false s'
    ∧ wf (nodes s').
Proof.
  intros Hwf (e & He & HeB)%hasSuccessor_true.
  destruct (succs_elem_allocated _ _ _ He) as [n Hn].
  rewrite (succs_lookup _ _ _ Hn) in He.
  assert (findSuccessorImpl n B ≠ length (Successors n)) as Hf.
  { intros Hf. by apply (proj1 (findSuccessorImpl_end _ _) Hf _ He). }
  destruct (findSuccessorImpl_found _ _ Hf) as (E & HE & HEB).
  destruct (removeSuccessorImpl_spec s A _ n E Hwf Hn HE)
    as (s' & Hrun & Hrem & _).
  rewrite HEB in Hrem.
  exists (findSuccessorImpl n B), s'. split; [|split; [|split]].
  - unfold removeSuccessor. by rewrite bind_unfold, (load_eq _ _ _ Hn).
  - apply hasSuccessor_false.
    + apply (er_allocated _ _ _ _ Hrem). eauto.
    + intros e' He' Hn'. apply (er_succs _ _ _ _ Hrem) in He'. tauto.
  - apply hasPredecessor_false.
    + apply (er_allocated _ _ _ _ Hrem).
      destruct (wf_far_predecessor _ _ _ E Hwf Hn) as (m & _ & Hm & _).
      { by eapply list_elem_of_lookup_2. }
      rewrite HEB in Hm. eauto.
    + intros v Hv Hn'. apply (er_preds _ _ _ _ Hrem) in Hv. tauto.
  - by eapply edge_removed_wf.
Qed.

(** C5, as the code behaves: removing a record whose far half is
    missing dies in the broken-layout assertion when the far vector
    holds some record, and returns the iterator, without touching the
    store, when the far vector is empty. *)
Theorem remove_with_missing_half s this It n :
  nodes s !! this = Some n →
  (∀ E m,
     Successors n !! It = Some E →
     nodes s !! ONeighbor E = Some m →
     (∀ v, v ∈ Predecessors m → VNeighbor v ≠ this) →
     (Predecessors m ≠ [] →
      removeSuccessor_it this It s
      = Aborts "Half of an edge is missing, graph layout is broken." s)
     ∧ (Predecessors m = [] → removeSuccessor_it this It s = Returns It s))
  ∧ (∀ E m,
     Predecessors n !! It = Some E →
     nodes s !! VNeighbor E = Some m →
     (∀ e, e ∈ Successors m → ONeighbor e ≠ this) →
     (Successors m ≠ [] →
      removePredecessor_it this It s
      = Aborts "Half of an edge is missing, graph layout is broken." s)
     ∧ (Successors m = [] → removePredecessor_it this It s = Returns It s)).
Proof.
  intros Hn. split.
  - intros E m HE Hm Hmiss.
    apply findPredecessorImpl_end in Hmiss.
    unfold removeSuccessor_it, removeSuccessorImpl.
    rewrite bind_unfold, (load_eq _ _ _ Hn).
    case_bool_decide as Hnil; [by rewrite Hnil in HE|].
    rewrite bind_unfold. unfold deref. rewrite HE. cbn.
    rewrite bind_unfold, (load_eq _ _ _ Hm).
    split; intros Hm'.
    + rewrite bool_decide_eq_false_2 by done.
      rewrite bind_unfold. by rewrite (bool_decide_eq_true_2 _ Hmiss).
    + by rewrite bool_decide_eq_true_2 by done.
  - intros E m HE Hm Hmiss.
    apply findSuccessorImpl_end in Hmiss.
    unfold removePredecessor_it, removePredecessorImpl.
    rewrite bind_unfold, (load_eq _ _ _ Hn).
    case_bool_decide as Hnil; [by rewrite Hnil in HE|].
    rewrite bind_unfold. unfold deref. rewrite HE. cbn.
    rewrite bind_unfold, (load_eq _ _ _ Hm).
    split; intros Hm'.
    + rewrite bool_decide_eq_false_2 by done.
      rewrite bind_unfold. by rewrite (bool_decide_eq_true_2 _ Hmiss).
    + by rewrite bool_decide_eq_true_2 by done.
Qed.

(** C7: in a well-formed store, [N.disconnect()] returns (given fuel
    for one more round than [N] has records on either side); after
    it [N] has neither successors nor predecessors, no node has a
    record that refers to [N], and the allocated nodes, [N] among
    them, are the ones from before. *)
Theorem disconnect_isolates fuel s N n :
  wf (nodes s) → nodes s !! N = Some n →
  length (Successors n) < fuel → length (Predecessors n) < fuel →
  ∃ s', disconnect fuel N s = Returns N s'
    ∧ hasSuccessors N s' = Returns false s'
    ∧ hasPredecessors N s' = Returns false s'
    ∧ (∀ a, is_Some (nodes s' !! a) →
         hasSuccessor a N s' = Returns false s'
         ∧ hasPredecessor a N s' = Returns false s')
    ∧ is_Some (nodes s' !! N)
    ∧ (∀ a, is_Some (nodes s' !! a) ↔ is_Some (nodes s !! a))
    ∧ wf (nodes s').
Proof.
  intros Hwf Hn HlenS HlenP.
  destruct (disconnect_spec fuel s N Hwf) as (s' & Hrun & Hwf' & Hsh & HS & HP).
  { eauto. }
  { by rewrite (succs_lookup _ _ _ Hn). }
  { by rewrite (preds_lookup _ _ _ Hn). }
  assert (is_Some (nodes s' !! N)) as HN'.
  { apply (sh_allocated _ _ Hsh). eauto. }
  exists s'. split; [done|].
  split; [by apply hasSuccessors_nil|].
  split; [by apply hasPredecessors_nil|].
  split; [|split; [done|split; [apply (sh_allocated _ _ Hsh)|done]]].
  intros a Ha. destruct (wf_isolated _ N Hwf' HS HP a) as [H1 H2]. split.
  - by apply hasSuccessor_false.
  - by apply hasPredecessor_false.
Qed.

(** C9: on a node without successor records every [removeSuccessor]
    overload returns [end()] and leaves the store as it is; likewise
    [removePredecessor] on a node without predecessor records. *)
Theorem remove_on_empty_is_noop s this n :
  nodes s !! this = Some n →
  (Successors n = [] →
     (∀ It, removeSuccessor_it this It s = Returns (length (Successors n)) s)
     ∧ (∀ S, removeSuccessor this S s = Returns (length (Successors n)) s))
  ∧ (Predecessors n = [] →
     (∀ It, removePredecessor_it this It s = Returns (length (Predecessors n)) s)
     ∧ (∀ P, removePredecessor this P s = Returns (length (Predecessors n)) s)).
Proof.
  intros Hn. split; intros Hnil.
  - assert (∀ It, removeSuccessorImpl this It s
                  = Returns (length (Successors n)) s) as Himpl.
    { intros It. unfold removeSuccessorImpl.
      rewrite bind_unfold, (load_eq _ _ _ Hn).
      by rewrite bool_decide_eq_true_2 by done. }
    split; [done|]. intros S. unfold removeSuccessor.
    by rewrite bind_unfold, (load_eq _ _ _ Hn).
  - assert (∀ It, removePredecessorImpl this It s
                  = Returns (length (Predecessors n)) s) as Himpl.
    { intros It. unfold removePredecessorImpl.
      rewrite bind_unfold, (load_eq _ _ _ Hn).
      by rewrite bool_decide_eq_true_2 by done. }
    split; [done|]. intros P. unfold removePredecessor.
    by rewrite bind_unfold, (load_eq _ _ _ Hn).
Qed.

(** *** The invariant holds in every reachable store *)

Lemma wf_ext σ σ' :
  (∀ a, succs σ' a = succs σ a) → (∀ a, preds σ' a = preds σ a) →
  wf σ → wf σ'.
Proof.
  intros HS HP [HndS HndP Hmir]. split.
  - intros a. by rewrite HS.
  - intros a. by rewrite HP.
  - intros a b l. by rewrite HS, HP.
Qed.

Lemma removeSuccessorImpl_wf s this It r s' :
  wf (nodes s) → removeSuccessorImpl this It s = Returns r s' →
  wf (nodes s') ∧ shrunk (nodes s) (nodes s').
Proof.
  intros Hwf.
  destruct (nodes s !! this) as [n|] eqn:Hn.
  2: { unfold removeSuccessorImpl. by rewrite bind_unfold, (load_dangling _ _ Hn). }
  destruct (Successors n !! It) as [E|] eqn:HE.
  - destruct (removeSuccessorImpl_spec s this It n E Hwf Hn HE)
      as (s1 & -> & Hrem & _).
    intros [= <- <-]. split; [by eapply edge_removed_wf|].
    by eapply edge_removed_shrunk.
  - unfold removeSuccessorImpl. rewrite bind_unfold, (load_eq _ _ _ Hn).
    case_bool_decide as Hnil.
    + intros [= <- <-]. split; [done|apply shrunk_refl].
    + rewrite bind_unfold. unfold deref. by rewrite HE.
Qed.

Lemma removePredecessorImpl_wf s this It r s' :
  wf (nodes s) → removePredecessorImpl this It s = Returns r s' →
  wf (nodes s') ∧ shrunk (nodes s) (nodes s').
Proof.
  intros Hwf.
  destruct (nodes s !! this) as [n|] eqn:Hn.
  2: { unfold removePredecessorImpl. by rewrite bind_unfold, (load_dangling _ _ Hn). }
  destruct (Predecessors n !! It) as [E|] eqn:HE.
  - destruct (removePredecessorImpl_spec s this It n E Hwf Hn HE)
      as (s1 & -> & Hrem & _).
    intros [= <- <-]. split; [by eapply edge_removed_wf|].
    by eapply edge_removed_shrunk.
  - unfold removePredecessorImpl. rewrite bind_unfold, (load_eq _ _ _ Hn).
    case_bool_decide as Hnil.
    + intros [= <- <-]. split; [done|apply shrunk_refl].
    + rewrite bind_unfold. unfold deref. by rewrite HE.
Qed.

(** A returning loop leaves no record on its side of [this]. *)
Lemma disconnect_successors_Returns fuel : ∀ s this s',
  wf (nodes s) → disconnect_successors fuel this 0 s = Returns tt s' →
  wf (nodes s') ∧ shrunk (nodes s) (nodes s') ∧ succs (nodes s') this = [].
Proof.
  induction fuel as [|fuel IH]; intros s this s' Hwf; [done|]. simpl.
  rewrite bind_unfold. unfold load at 1.
  destruct (nodes s !! this) as [n|] eqn:Hn; [|done].
  case_bool_decide as Hend.
  - intros [= <-]. split; [done|]. split; [apply shrunk_refl|].
    rewrite (succs_lookup _ _ _ Hn). by apply nil_length_inv.
  - destruct (Successors n) as [|E l] eqn:HS; [done|].
    destruct (removeSuccessorImpl_spec s this 0 n E Hwf Hn)
      as (s1 & Hrun & Hrem & _); [by rewrite HS|].
    rewrite bind_unfold, Hrun. intros Hloop.
    destruct (IH s1 this s') as (Hwf' & Hsh & Hnil); [|done|].
    { by eapply edge_removed_wf. }
    split; [done|]. split; [|done].
    eapply shrunk_trans; [by eapply edge_removed_shrunk|done].
Qed.

Lemma disconnect_predecessors_Returns fuel : ∀ s this s',
  wf (nodes s) → disconnect_predecessors fuel this 0 s = Returns tt s' →
  wf (nodes s') ∧ shrunk (nodes s) (nodes s') ∧ preds (nodes s') this = [].
Proof.
  induction fuel as [|fuel IH]; intros s this s' Hwf; [done|]. simpl.
  rewrite bind_unfold. unfold load at 1.
  destruct (nodes s !! this) as [n|] eqn:Hn; [|done].
  case_bool_decide as Hend.
  - intros [= <-]. split; [done|]. split; [apply shrunk_refl|].
    rewrite (preds_lookup _ _ _ Hn). by apply nil_length_inv.
  - destruct (Predecessors n) as [|E l] eqn:HS; [done|].
    destruct (removePredecessorImpl_spec s this 0 n E Hwf Hn)
      as (s1 & Hrun & Hrem & _); [by rewrite HS|].
    rewrite bind_unfold, Hrun. intros Hloop.
    destruct (IH s1 this s') as (Hwf' & Hsh & Hnil); [|done|].
    { by eapply edge_removed_wf. }
    split; [done|]. split; [|done].
    eapply shrunk_trans; [by eapply edge_removed_shrunk|done].
Qed.

Lemma disconnect_Returns fuel s this r s' :
  wf (nodes s) → disconnect fuel this s = Returns r s' →
  wf (nodes s') ∧ shrunk (nodes s) (nodes s')
  ∧ succs (nodes s') this = [] ∧ preds (nodes s') this = [].
Proof.
  intros Hwf. unfold disconnect. rewrite bind_unfold.
  destruct (disconnect_successors fuel this 0 s) as [[] s1| | |] eqn:H1;
    [|done..].
  destruct (disconnect_successors_Returns _ _ _ _ Hwf H1) as (Hwf1 & Hsh1 & Hnil1).
  rewrite bind_unfold.
  destruct (disconnect_predecessors fuel this 0 s1) as [[] s2| | |] eqn:H2;
    [|done..].
  destruct (disconnect_predecessors_Returns _ _ _ _ Hwf1 H2)
    as (Hwf2 & Hsh2 & Hnil2).
  intros [= <- <-]. split; [done|]. split; [by eapply shrunk_trans|].
  split; [|done].
  pose proof (sh_succs_length _ _ Hsh2 this) as Hle. rewrite Hnil1 in Hle.
  apply nil_length_inv. simpl in Hle. lia.
Qed.

(** Allocating a node without edges, and freeing one. *)
Lemma wf_insert_fresh σ a p :
  σ !! a = None → wf σ → wf (<[a := mkNode p [] []]> σ).
Proof.
  intros Ha Hwf. eapply wf_ext; [..|exact Hwf].
  - intros x. unfold succs. rewrite lookup_insert.
    case_decide; [subst; by rewrite Ha|done].
  - intros x. unfold preds. rewrite lookup_insert.
    case_decide; [subst; by rewrite Ha|done].
Qed.

Lemma wf_delete_isolated σ p :
  succs σ p = [] → preds σ p = [] → wf σ → wf (delete p σ).
Proof.
  intros HS HP Hwf. eapply wf_ext; [..|exact Hwf].
  - intros x. unfold succs in *. rewrite lookup_delete.
    case_decide; [by subst|done].
  - intros x. unfold preds in *. rewrite lookup_delete.
    case_decide; [by subst|done].
Qed.

Lemma destroy_all_eq l : ∀ s,
  ∃ h, destroy_all l s = Returns tt (mkMemory (nodes s) h).
Proof.
  induction l as [|e l IH]; intros s; simpl.
  - exists (labels s). by destruct s.
  - rewrite bind_unfold, destroy_eq.
    destruct (IH (mkMemory (nodes s) (release (OLabel e) (labels s))))
      as [h Hh].
    by exists h.
Qed.

Lemma addNode_wf par s this G r s' :
  wf (nodes s) → addNode par this G s = Returns r s' → wf (nodes s').
Proof.
  intros Hwf. unfold addNode. rewrite bind_unfold. unfold make_node.
  set (a := fresh (dom (nodes s))).
  assert (nodes s !! a = None) as Ha by (apply not_elem_of_dom, is_fresh).
  rewrite bind_unfold. destruct par.
  - unfold setParent. rewrite bind_unfold. unfold load at 1. cbn.
    rewrite lookup_insert_eq. cbn. intros [= <- <-]. cbn.
    rewrite insert_insert_eq. by apply wf_insert_fresh.
  - cbn. intros [= <- <-]. cbn. by apply wf_insert_fresh.
Qed.

Lemma removeNode_it_wf fuel s G It r s' :
  wf (nodes s) → removeNode_it fuel G It s = Returns r s' → wf (nodes s').
Proof.
  intros Hwf. unfold removeNode_it. rewrite bind_unfold. unfold deref.
  destruct (Nodes G !! It) as [p|]; [|done]. cbn.
  rewrite bind_unfold.
  destruct (disconnect fuel p s) as [r1 s1| | |] eqn:H1; [|done..].
  destruct (disconnect_Returns _ _ _ _ _ Hwf H1) as (Hwf1 & Hsh1 & HS & HP).
  rewrite bind_unfold. unfold delete_node. rewrite bind_unfold. unfold load at 1.
  destruct (nodes s1 !! p) as [n|] eqn:Hn; [|done].
  rewrite bind_unfold.
  destruct (destroy_all_eq (Successors n) s1) as [h ->].
  cbn. intros [= <- <-]. cbn. by apply wf_delete_isolated.
Qed.

(** The invariant is the class invariant: whatever the calls, as long
    as each returns, the store stays well-formed. *)
Lemma reachable_wf lab par s : reachable lab par s → wf (nodes s).
Proof.
  induction 1 as
    [ | this G r s s' _ IH Hrun | this S EL r s s' _ IH Hrun
    | this P EL r s s' _ IH Hrun | this It r s s' _ IH Hrun
    | this S r s s' _ IH Hrun | this It r s s' _ IH Hrun
    | this P r s s' _ IH Hrun | fuel this r s s' _ IH Hrun
    | fuel G It r s s' _ IH Hrun ].
  - apply wf_empty.
  - by eapply addNode_wf.
  - apply addSuccessor_Returns in Hrun as (HA & HB & Hnew & _ & -> & _).
    by apply edge_added_wf.
  - apply addPredecessor_Returns in Hrun as (HA & HB & Hnew & _ & -> & _).
    apply edge_added_wf; try done.
    intros [b l] He Hb. cbn in Hb. subst b.
    apply (wf_mirror _ IH) in He. by apply (Hnew _ He).
  - by eapply removeSuccessorImpl_wf.
  - unfold removeSuccessor in Hrun. rewrite bind_unfold in Hrun.
    unfold load at 1 in Hrun.
    destruct (nodes s !! this) as [n|]; [|done].
    by eapply removeSuccessorImpl_wf.
  - by eapply removePredecessorImpl_wf.
  - unfold removePredecessor in Hrun. rewrite bind_unfold in Hrun.
    unfold load at 1 in Hrun.
    destruct (nodes s !! this) as [n|]; [|done].
    by eapply removePredecessorImpl_wf.
  - by eapply disconnect_Returns.
  - by eapply removeNode_it_wf.
Qed.

(** *** EntryNode and GenericGraph *)

(** C10: a new graph has a null entry node; [getEntryNode] after
    [setEntryNode(P)] gives [P] back, and the owned nodes are the same
    as before. *)
Theorem entry_node_get_set (G : GenericGraph) (P : option nat) :
  getEntryNode newGraph = None
  ∧ getEntryNode (setEntryNode P G) = P
  ∧ Nodes (setEntryNode P G) = Nodes G.
Proof. done. Qed.

(** C8: the scenario with the nodes A, B, C and the edges A→B, B→C.
    Before the removal the three counts are 1; after [removeNode(B)]
    the successor count of A and the predecessor count of C are 0,
    the container holds A and C, and the store holds just these two
    nodes, without records. *)
Theorem remove_middle_node_scenario lab par k this (EL1 EL2 : EdgeLabel) :
  ∃ A B C s,
    remove_middle_scenario lab par (S (S k)) this EL1 EL2 (mkMemory ∅ ∅)
    = Returns (1, 1, 1, (0, 0), (A, B, C), [A; C]) s
    ∧ A ≠ B ∧ B ≠ C ∧ A ≠ C
    ∧ nodes s !! B = None
    ∧ succs (nodes s) A = [] ∧ preds (nodes s) A = []
    ∧ succs (nodes s) C = [] ∧ preds (nodes s) C = []
    ∧ dom (nodes s) = {[A; C]}.
Proof.
  destruct lab, par; exists 0, 1, 2; eexists;
    (split; [vm_compute; reflexivity|]);
    repeat split; try done; vm_compute; reflexivity.
Qed.

End MutableEdgeTheory.


(** ** Instances on the example stores *)

Section MutableEdgeWitnesses.
Import MutableEdge Examples.

Lemma addSuccessor_mirrored_witness :
  addSuccessor true 0 1 7 isolated2 = Returns (mkEdgeView 1 (Some 0)) linked2
  ∧ hasSuccessor 0 1 linked2 = Returns true linked2
  ∧ hasPredecessor 1 0 linked2 = Returns true linked2.
Proof.
  assert (addSuccessor true 0 1 7 isolated2
          = Returns (mkEdgeView 1 (Some 0)) linked2) as H
    by (vm_compute; reflexivity).
  split; [exact H|].
  destruct (addSuccessor_mirrored _ _ _ _ _ _ _ H) as (H1 & H2 & _).
  split; [exact H1|exact H2].
Defined.

Lemma addSuccessor_duplicate_aborts_witness :
  hasSuccessor 0 1 linked2 = Returns true linked2
  ∧ addSuccessor true 0 1 8 linked2
    = Aborts "Only one edge is allowed between two nodes." linked2.
Proof.
  assert (hasSuccessor 0 1 linked2 = Returns true linked2) as H
    by (vm_compute; reflexivity).
  split; [exact H|].
  exact (addSuccessor_duplicate_aborts true linked2 0 1 8 H).
Defined.

Lemma removeSuccessor_removes_both_halves_witness :
  wf (nodes linked2)
  ∧ hasSuccessor 0 1 linked2 = Returns true linked2
  ∧ ∃ It s', removeSuccessor 0 1 linked2 = Returns It s'
      ∧ hasSuccessor 0 1 s' = Returns false s'
      ∧ hasPredecessor 1 0 s' = Returns false s'
      ∧ wf (nodes s').
Proof.
  assert (wf (nodes linked2)) as Hwf by compute_done.
  assert (hasSuccessor 0 1 linked2 = Returns true linked2) as H
    by (vm_compute; reflexivity).
  split; [exact Hwf|]. split; [exact H|].
  exact (removeSuccessor_removes_both_halves linked2 0 1 Hwf H).
Defined.

(** C5, as stated, fails: node 0 holds a successor record for node 1,
    the predecessor vector of node 1 has no record for node 0, and
    [removeSuccessor] returns, leaving the store as it was. *)
Lemma removeSuccessor_lost_view_returns :
  (∃ e, e ∈ succs (nodes lost_view) 0 ∧ ONeighbor e = 1)
  ∧ (∀ v, v ∈ preds (nodes lost_view) 1 → VNeighbor v ≠ 0)
  ∧ removeSuccessor 0 1 lost_view = Returns 0 lost_view
  ∧ removeSuccessor_it 0 0 lost_view = Returns 0 lost_view
  ∧ (∃ v, v ∈ preds (nodes lost_owner) 1 ∧ VNeighbor v = 0)
  ∧ (∀ e, e ∈ succs (nodes lost_owner) 0 → ONeighbor e ≠ 1)
  ∧ removePredecessor 1 0 lost_owner = Returns 0 lost_owner.
Proof.
  split; [|split; [|split; [|split; [|split; [|split]]]]].
  - exists (mkOwningEdge 1 (Some 0)). split; [|reflexivity].
    vm_compute. apply list_elem_of_here.
  - intros v Hv. vm_compute in Hv. by apply elem_of_nil in Hv.
  - vm_compute. reflexivity.
  - vm_compute. reflexivity.
  - exists (mkNonOwningEdge 0 (Some 0)). split; [|reflexivity].
    vm_compute. apply list_elem_of_here.
  - intros v Hv. vm_compute in Hv. by apply elem_of_nil in Hv.
  - vm_compute. reflexivity.
Qed.

Lemma remove_with_missing_half_witness :
  removeSuccessor_it 0 0 stray_view
  = Aborts "Half of an edge is missing, graph layout is broken." stray_view
  ∧ removeSuccessor_it 0 0 lost_view = Returns 0 lost_view
  ∧ removePredecessor_it 1 0 stray_owner
    = Aborts "Half of an edge is missing, graph layout is broken." stray_owner
  ∧ removePredecessor_it 1 0 lost_owner = Returns 0 lost_owner.
Proof.
  split; [|split; [|split]].
  - refine (proj1 (proj1 (remove_with_missing_half stray_view 0 0
                            (mkNode None [mkOwningEdge 1 (Some 0)] []) eq_refl)
                     (mkOwningEdge 1 (Some 0))
                     (mkNode None [] [mkNonOwningEdge 2 (Some 1)])
                     eq_refl eq_refl _) _).
    + intros v ->%list_elem_of_singleton. cbn. lia.
    + discriminate.
  - refine (proj2 (proj1 (remove_with_missing_half lost_view 0 0
                            (mkNode None [mkOwningEdge 1 (Some 0)] []) eq_refl)
                     (mkOwningEdge 1 (Some 0)) (mkNode None [] [])
                     eq_refl eq_refl _) eq_refl).
    intros v Hv. by apply elem_of_nil in Hv.
  - refine (proj1 (proj2 (remove_with_missing_half stray_owner 1 0
                            (mkNode None [] [mkNonOwningEdge 0 (Some 0)]) eq_refl)
                     (mkNonOwningEdge 0 (Some 0))
                     (mkNode None [mkOwningEdge 2 (Some 1)] [])
                     eq_refl eq_refl _) _).
    + intros v ->%list_elem_of_singleton. cbn. lia.
    + discriminate.
  - refine (proj2 (proj2 (remove_with_missing_half lost_owner 1 0
                            (mkNode None [] [mkNonOwningEdge 0 (Some 0)]) eq_refl)
                     (mkNonOwningEdge 0 (Some 0)) (mkNode None [] [])
                     eq_refl eq_refl _) eq_refl).
    intros v Hv. by apply elem_of_nil in Hv.
Defined.

Lemma disconnect_isolates_witness :
  wf (nodes chain3)
  ∧ ∃ s', disconnect 2 1 chain3 = Returns 1 s'
      ∧ hasSuccessors 1 s' = Returns false s'
      ∧ hasPredecessors 1 s' = Returns false s'
      ∧ (∀ a, is_Some (nodes s' !! a) →
           hasSuccessor a 1 s' = Returns false s'
           ∧ hasPredecessor a 1 s' = Returns false s')
      ∧ is_Some (nodes s' !! 1)
      ∧ (∀ a, is_Some (nodes s' !! a) ↔ is_Some (nodes chain3 !! a))
      ∧ wf (nodes s').
Proof.
  assert (wf (nodes chain3)) as Hwf by compute_done.
  split; [exact Hwf|].
  refine (disconnect_isolates 2 chain3 1
            (mkNode None [mkOwningEdge 2 (Some 1)] [mkNonOwningEdge 0 (Some 0)])
            Hwf eq_refl _ _); cbn; lia.
Defined.

Lemma remove_on_empty_is_noop_witness :
  (∀ It, removeSuccessor_it 0 It isolated2 = Returns 0 isolated2)
  ∧ (∀ S, removeSuccessor 0 S isolated2 = Returns 0 isolated2)
  ∧ (∀ It, removePredecessor_it 0 It isolated2 = Returns 0 isolated2)
  ∧ (∀ P, removePredecessor 0 P isolated2 = Returns 0 isolated2).
Proof.
  pose proof (remove_on_empty_is_noop isolated2 0 (mkNode None [] []) eq_refl)
    as [HS HP].
  destruct (HS eq_refl) as [H1 H2]. destruct (HP eq_refl) as [H3 H4].
  split; [exact H1|]. split; [exact H2|]. split; [exact H3|exact H4].
Defined.

End MutableEdgeWitnesses.

(** ** More on vectors *)

Section VectorsMore.
Context {A : Type}.
Implicit Types (l : list A) (P : A → bool).

Lemma find_if_snoc P l y :
  (∀ x, x ∈ l → P x = false) → P y = true →
  find_if P (l ++ [y]) = length l.
Proof.
  intros Hl Hy. induction l as [|x l IH]; simpl.
  - by rewrite Hy.
  - rewrite (Hl x) by left. f_equal. apply IH. intros z Hz. apply Hl. by right.
Qed.

(** Swap-and-pop, said at once: the last element overwrites slot [i],
    then the last slot goes. *)
Lemma swap_pop_eq l i x y :
  l !! i = Some x → last l = Some y →
  pop_back (swap_with_back i l) = take (length l - 1) (<[i := y]> l).
Proof.
  intros Hi Hy. unfold pop_back, swap_with_back. rewrite Hi, Hy.
  rewrite !length_insert. by rewrite take_insert_ge.
Qed.

Lemma swap_pop_lookup l i x y j :
  l !! i = Some x → last l = Some y →
  pop_back (swap_with_back i l) !! j
  = if decide (S j < length l)
    then (if decide (j = i) then Some y else l !! j)
    else None.
Proof.
  intros Hi Hy. rewrite (swap_pop_eq _ _ _ _ Hi Hy), lookup_take.
  pose proof (lookup_lt_Some _ _ _ Hi) as Hlt.
  destruct (decide (j < length l - 1)), (decide (S j < length l)); try lia;
    [|done].
  rewrite list_lookup_insert.
  destruct (decide (j = i)) as [->|Hne].
  - by rewrite decide_True.
  - rewrite decide_False; [done|]. intros [? _]. congruence.
Qed.

End VectorsMore.

(** ** More on MutableEdgeNode *)

Section MutableEdgeMore.
Import MutableEdge.
Context {EdgeLabel : Type}.
Implicit Types (s : memory EdgeLabel) (σ : gmap nat MutableEdgeNode).
Implicit Types (n m : MutableEdgeNode) (h : gmap nat EdgeLabel).

Ltac alloc :=
  repeat first
    [ apply mapSuccessors_is_Some | apply mapPredecessors_is_Some ];
  eauto.

(** *** [addPredecessor] *)

(** X1: after a returning [this.addPredecessor(P, L)],
    [P.hasSuccessor(this)] and [this.hasPredecessor(P)] are true, the
    owner record appended to [P] and the view record appended to [this]
    hold the same label pointer (on labeled edges the one label the
    call allocated), and the view returned is the one of the owner
    record. *)
Theorem addPredecessor_mirrored lab s this P (L : EdgeLabel) v s' :
  addPredecessor lab this P L s = Returns v s' →
  hasSuccessor P this s' = Returns true s'
  ∧ hasPredecessor this P s' = Returns true s'
  ∧ ∃ l : option nat,
      last (succs (nodes s') P) = Some (mkOwningEdge this l)
      ∧ last (preds (nodes s') this) = Some (mkNonOwningEdge P l)
      ∧ v = mkEdgeView this l
      ∧ (if lab
         then ∃ p, l = Some p ∧ labels s !! p = None
                ∧ labels s' = <[p := L]> (labels s)
         else l = None ∧ labels s' = labels s)
      ∧ (∀ e, e ∈ preds (nodes s') this → VNeighbor e = P → VLabel e = l)
      ∧ (wf (nodes s) →
           (∀ e, e ∈ succs (nodes s') P → ONeighbor e = this → OLabel e = l)
           ∧ wf (nodes s')).
Proof.
  intros (Hthis & HP & Hnew & -> & Hnodes & Hlabels)%addPredecessor_Returns.
  set (l := if lab then Some (fresh (dom (labels s))) else None) in *.
  assert (succs (nodes s') P = succs (nodes s) P ++ [mkOwningEdge this l]) as HS.
  { rewrite Hnodes, succs_mapPredecessors, succs_mapSuccessors by done.
    by rewrite decide_True. }
  assert (preds (nodes s') this
          = preds (nodes s) this ++ [mkNonOwningEdge P l]) as HPr.
  { rewrite Hnodes, preds_mapPredecessors by alloc.
    by rewrite decide_True, preds_mapSuccessors. }
  split; [|split].
  - apply hasSuccessor_true. exists (mkOwningEdge this l).
    split; [|done]. rewrite HS. apply elem_of_app. right. by left.
  - apply hasPredecessor_true. exists (mkNonOwningEdge P l).
    split; [|done]. rewrite HPr. apply elem_of_app. right. by left.
  - exists l. rewrite HS, HPr, !last_snoc.
    split; [done|]. split; [done|]. split; [done|]. split; [|split].
    + subst l. destruct lab; [|done].
      eexists. split; [done|]. split; [|done].
      apply not_elem_of_dom, is_fresh.
    + intros e [He| ->%list_elem_of_singleton]%elem_of_app HeP; [|done].
      by destruct (Hnew _ He).
    + intros Hwf.
      assert (∀ e, e ∈ succs (nodes s) P → ONeighbor e ≠ this) as Hnew'.
      { intros [b l'] He Hb. cbn in Hb. subst b.
        apply (wf_mirror _ Hwf) in He. by apply (Hnew _ He). }
      split; [|rewrite Hnodes; by apply edge_added_wf].
      intros e [He| ->%list_elem_of_singleton]%elem_of_app Hethis; [|done].
      by destruct (Hnew' _ He).
Qed.

(** X2: when [this] already has a predecessor record for [P],
    [this.addPredecessor(P, L)] dies in the duplicate-edge assertion,
    in the store the call started from. *)
Theorem addPredecessor_duplicate_aborts lab s this P (L : EdgeLabel) :
  hasPredecessor this P s = Returns true s →
  addPredecessor lab this P L s
  = Aborts "Only one edge is allowed between two nodes." s.
Proof.
  intros Hdup. unfold addPredecessor. rewrite bind_unfold, Hdup. done.
Qed.

Lemma addSuccessor_dangling_this lab s A B (L : EdgeLabel) :
  nodes s !! A = None → addSuccessor lab A B L s = Undefined.
Proof.
  intros HA. unfold addSuccessor, hasSuccessor.
  by rewrite !bind_unfold, (load_dangling _ _ HA).
Qed.

Lemma addPredecessor_dangling_this lab s this P (L : EdgeLabel) :
  nodes s !! this = None → addPredecessor lab this P L s = Undefined.
Proof.
  intros HA. unfold addPredecessor, hasPredecessor.
  by rewrite !bind_unfold, (load_dangling _ _ HA).
Qed.

(** In a well-formed store the two duplicate checks agree. *)
Lemma wf_has_mirror s A B :
  wf (nodes s) → is_Some (nodes s !! A) → is_Some (nodes s !! B) →
  ∃ b, hasSuccessor A B s = Returns b s ∧ hasPredecessor B A s = Returns b s.
Proof.
  intros Hwf [nA HA] [nB HB].
  rewrite (hasSuccessor_eq _ _ _ _ HA), (hasPredecessor_eq _ _ _ _ HB).
  eexists. split; [done|]. do 2 f_equal.
  apply bool_decide_ext.
  rewrite findSuccessorImpl_end, findPredecessorImpl_end.
  rewrite <-(succs_lookup _ _ _ HA), <-(preds_lookup _ _ _ HB).
  split.
  - intros H [a l] Hv Ha. cbn in Ha. subst a.
    apply (wf_mirror _ Hwf) in Hv. by apply (H _ Hv).
  - intros H [b l] He Hb. cbn in Hb. subst b.
    apply (wf_mirror _ Hwf) in He. by apply (H _ He).
Qed.

(** X3: in a well-formed store [this.addPredecessor(P, L)] and
    [P.addSuccessor(this, L)] are the same call: same result, same
    store, same abort, same undefined behaviour. *)
Theorem addPredecessor_is_addSuccessor lab s this P (L : EdgeLabel) :
  wf (nodes s) →
  addPredecessor lab this P L s = addSuccessor lab P this L s.
Proof.
  intros Hwf.
  destruct (nodes s !! this) as [n|] eqn:Hn, (nodes s !! P) as [m|] eqn:Hm.
  - destruct (wf_has_mirror s P this Hwf) as (b & HbS & HbP); [eauto..|].
    unfold addPredecessor, addSuccessor.
    rewrite !bind_unfold, HbS, HbP. destruct b; [done|]. cbn [negb].
    rewrite !bind_unfold, !revng_assert_true.
    by rewrite !bind_unfold, !constructEdge_eq.
  - rewrite (addSuccessor_dangling_this _ _ _ _ _ Hm).
    unfold addPredecessor. rewrite bind_unfold, (hasPredecessor_eq _ _ _ _ Hn).
    case_bool_decide as Hdup; cbn [negb].
    + rewrite bind_unfold, revng_assert_true.
      rewrite bind_unfold, constructEdge_eq. cbv beta iota zeta.
      rewrite bind_unfold. unfold updSuccessors.
      by rewrite bind_unfold, load_dangling.
    + destruct (findPredecessorImpl_found _ _ Hdup) as (v & Hv & HvP).
      apply list_elem_of_lookup_2 in Hv.
      rewrite <-(preds_lookup _ _ _ Hn) in Hv. destruct v as [a l].
      cbn in HvP. subst a. apply (wf_mirror _ Hwf) in Hv.
      apply succs_elem_allocated in Hv as [? ?]. congruence.
  - rewrite (addPredecessor_dangling_this _ _ _ _ _ Hn).
    unfold addSuccessor. rewrite bind_unfold, (hasSuccessor_eq _ _ _ _ Hm).
    case_bool_decide as Hdup; cbn [negb].
    + rewrite bind_unfold, revng_assert_true.
      rewrite bind_unfold, constructEdge_eq. cbv beta iota zeta.
      rewrite bind_unfold, updSuccessors_eq by (cbn; eauto).
      rewrite bind_unfold. unfold updPredecessors.
      rewrite bind_unfold, load_dangling; [done|].
      cbn. apply eq_None_not_Some. rewrite mapSuccessors_is_Some, Hn.
      by intros [? ?].
    + destruct (findSuccessorImpl_found _ _ Hdup) as (e & He & Hethis).
      apply list_elem_of_lookup_2 in He.
      rewrite <-(succs_lookup _ _ _ Hm) in He. destruct e as [b l].
      cbn in Hethis. subst b. apply (wf_mirror _ Hwf) in He.
      apply preds_elem_allocated in He as [? ?]. congruence.
  - by rewrite (addPredecessor_dangling_this _ _ _ _ _ Hn),
      (addSuccessor_dangling_this _ _ _ _ _ Hm).
Qed.

(** *** Removal from the predecessor side *)

(** X4: in a well-formed store where [B] has a predecessor record for
    [A], [B.removePredecessor(A)] returns; afterwards
    [B.hasPredecessor(A)] and [A.hasSuccessor(B)] are false, and the
    label of the edge, owned on [A]'s side, is released. *)
Theorem removePredecessor_removes_both_halves s B A :
  wf (nodes s) →
  hasPredecessor B A s = Returns true s →
  ∃ It s' l, removePredecessor B A s = Returns It s'
    ∧ hasPredecessor B A s' = Returns false s'
    ∧ hasSuccessor A B s' = Returns false s'
    ∧ mkOwningEdge B l ∈ succs (nodes s) A
    ∧ labels s' = release l (labels s)
    ∧ wf (nodes s').
Proof.
  intros Hwf (e & He & HeA)%hasPredecessor_true.
  destruct (preds_elem_allocated _ _ _ He) as [n Hn].
  rewrite (preds_lookup _ _ _ Hn) in He.
  assert (findPredecessorImpl n A ≠ length (Predecessors n)) as Hf.
  { intros Hf. by apply (proj1 (findPredecessorImpl_end _ _) Hf _ He). }
  destruct (findPredecessorImpl_found _ _ Hf) as (E & HE & HEA).
  destruct (removePredecessorImpl_spec s B _ n E Hwf Hn HE)
    as (s' & Hrun & Hrem & Hlab).
  rewrite HEA in Hrem.
  assert (mkOwningEdge B (VLabel E) ∈ succs (nodes s) A) as Hown.
  { apply (wf_mirror _ Hwf). rewrite (preds_lookup _ _ _ Hn).
    apply list_elem_of_lookup_2 in HE. destruct E as [a l].
    cbn in HEA. by subst a. }
  exists (findPredecessorImpl n A), s', (VLabel E).
  split; [|split; [|split; [|split; [done|split; [done|]]]]].
  - unfold removePredecessor. by rewrite bind_unfold, (load_eq _ _ _ Hn).
  - apply hasPredecessor_false.
    + apply (er_allocated _ _ _ _ Hrem). eauto.
    + intros v Hv Hn'. apply (er_preds _ _ _ _ Hrem) in Hv. tauto.
  - apply hasSuccessor_false.
    + apply (er_allocated _ _ _ _ Hrem). by eapply succs_elem_allocated.
    + intros v Hv Hn'. apply (er_succs _ _ _ _ Hrem) in Hv. tauto.
  - by eapply edge_removed_wf.
Qed.

(** *** What a removal does to the vectors *)

(** X5: in a well-formed store, removing the successor record under
    [It] overwrites that slot with the last record of the vector and
    drops the last slot; the same happens to the mirrored record in
    the predecessor vector of the neighbour.  No other vector
    changes, and the label of the edge is released. *)
Theorem removeSuccessor_swaps_last_in s this It n E Y :
  wf (nodes s) → nodes s !! this = Some n →
  Successors n !! It = Some E → last (Successors n) = Some Y →
  ∃ s' m j V Z,
    removeSuccessor_it this It s = Returns It s'
    ∧ succs (nodes s') this
      = take (length (Successors n) - 1) (<[It := Y]> (Successors n))
    ∧ nodes s !! ONeighbor E = Some m
    ∧ Predecessors m !! j = Some V ∧ VNeighbor V = this
    ∧ last (Predecessors m) = Some Z
    ∧ preds (nodes s') (ONeighbor E)
      = take (length (Predecessors m) - 1) (<[j := Z]> (Predecessors m))
    ∧ (∀ a, a ≠ this → succs (nodes s') a = succs (nodes s) a)
    ∧ (∀ b, b ≠ ONeighbor E → preds (nodes s') b = preds (nodes s) b)
    ∧ labels s' = release (OLabel E) (labels s).
Proof.
  intros Hwf Hn HE HY.
  destruct (wf_far_predecessor _ _ _ E Hwf Hn) as (m & V & Hm & Hf & HV & HVn).
  { by eapply list_elem_of_lookup_2. }
  destruct (last (Predecessors m)) as [Z|] eqn:HZ.
  2: { apply last_None in HZ. by rewrite HZ in HV. }
  unfold removeSuccessor_it.
  rewrite (removeSuccessorImpl_eq _ _ _ _ _ _ Hn HE Hm Hf).
  eexists _, m, (findPredecessorImpl m this), V, Z.
  split; [done|]. cbn.
  split; [|split; [done|split; [done|split; [done|split; [done|]]]]].
  - rewrite !succs_mapSuccessors by alloc. rewrite !decide_True by done.
    rewrite succs_mapPredecessors, (succs_lookup _ _ _ Hn).
    by apply (swap_pop_eq _ _ E).
  - split; [|split; [|split; [|done]]].
    + rewrite !preds_mapSuccessors, preds_mapPredecessors by eauto.
      rewrite decide_True by done. rewrite (preds_lookup _ _ _ Hm).
      by apply (swap_pop_eq _ _ V).
    + intros a Ha. rewrite !succs_mapSuccessors by alloc.
      by rewrite !decide_False, succs_mapPredecessors by done.
    + intros b Hb. rewrite !preds_mapSuccessors, preds_mapPredecessors by eauto.
      by rewrite decide_False by done.
Qed.

(** *** Adding an edge and taking it out again *)

Lemma parent_mapSuccessors σ p f k :
  TheParent <$> mapSuccessors p f σ !! k = TheParent <$> σ !! k.
Proof.
  unfold mapSuccessors. rewrite lookup_alter.
  case_decide; subst; [|done]. by destruct (σ !! k).
Qed.

Lemma parent_mapPredecessors σ p f k :
  TheParent <$> mapPredecessors p f σ !! k = TheParent <$> σ !! k.
Proof.
  unfold mapPredecessors. rewrite lookup_alter.
  case_decide; subst; [|done]. by destruct (σ !! k).
Qed.

(** Two node maps with the same nodes, parents and vectors are equal. *)
Lemma nodes_ext σ σ' :
  (∀ k, is_Some (σ' !! k) ↔ is_Some (σ !! k)) →
  (∀ k, TheParent <$> σ' !! k = TheParent <$> σ !! k) →
  (∀ k, succs σ' k = succs σ k) → (∀ k, preds σ' k = preds σ k) →
  σ' = σ.
Proof.
  intros Halloc Hpar HS HP. apply map_eq. intros k.
  specialize (Halloc k). specialize (Hpar k).
  specialize (HS k). specialize (HP k). unfold succs, preds in *.
  destruct (σ' !! k) as [[p' S' P']|], (σ !! k) as [[p S P]|]; cbn in *.
  - congruence.
  - destruct Halloc as [[? ?] _]; eauto; done.
  - destruct Halloc as [_ [? ?]]; eauto; done.
  - done.
Qed.

(** X6: in a well-formed store, [A.addSuccessor(B, L)] followed by
    [A.removeSuccessor(B)] gives back the store from before the two
    calls, nodes and labels alike; the iterator returned is the old
    [end()] of [A]'s successors. *)
Theorem addSuccessor_removeSuccessor_round_trip lab s A B (L : EdgeLabel) v s1 :
  wf (nodes s) →
  addSuccessor lab A B L s = Returns v s1 →
  removeSuccessor A B s1 = Returns (length (succs (nodes s) A)) s.
Proof.
  intros Hwf (HA & HB & Hnew & _ & Hnodes & Hlabels)%addSuccessor_Returns.
  set (l := if lab then Some (fresh (dom (labels s))) else None) in *.
  assert (∀ v, v ∈ preds (nodes s) B → VNeighbor v ≠ A) as Hnew'.
  { intros [a l'] Hv Ha. cbn in Ha. subst a.
    apply (wf_mirror _ Hwf) in Hv. by apply (Hnew _ Hv). }
  assert (succs (nodes s1) A = succs (nodes s) A ++ [mkOwningEdge B l]) as HS.
  { rewrite Hnodes, succs_mapPredecessors, succs_mapSuccessors by done.
    by rewrite decide_True. }
  assert (preds (nodes s1) B = preds (nodes s) B ++ [mkNonOwningEdge A l]) as HP.
  { rewrite Hnodes, preds_mapPredecessors by alloc.
    by rewrite decide_True, preds_mapSuccessors. }
  assert (is_Some (nodes s1 !! A)) as [n1 Hn1] by (rewrite Hnodes; alloc).
  assert (is_Some (nodes s1 !! B)) as [m1 Hm1] by (rewrite Hnodes; alloc).
  rewrite (succs_lookup _ _ _ Hn1) in HS.
  rewrite (preds_lookup _ _ _ Hm1) in HP.
  assert (findSuccessorImpl n1 B = length (succs (nodes s) A)) as HfS.
  { unfold findSuccessorImpl. rewrite HS. apply find_if_snoc.
    - intros e He. apply bool_decide_eq_false. by apply Hnew.
    - by apply bool_decide_eq_true. }
  assert (findPredecessorImpl m1 A = length (preds (nodes s) B)) as HfP.
  { unfold findPredecessorImpl. rewrite HP. apply find_if_snoc.
    - intros e He. apply bool_decide_eq_false. by apply Hnew'.
    - by apply bool_decide_eq_true. }
  unfold removeSuccessor. rewrite bind_unfold, (load_eq _ _ _ Hn1), HfS.
  rewrite (removeSuccessorImpl_eq _ _ _ n1 (mkOwningEdge B l) m1); try done.
  2: { rewrite HS. by apply list_lookup_middle. }
  2: { rewrite HfP, HP, length_app. cbn. lia. }
  f_equal. destruct s as [σ h]. simpl nodes in *. simpl labels in *. f_equal.
  - apply nodes_ext.
    + intros k. rewrite !mapSuccessors_is_Some, mapPredecessors_is_Some.
      by rewrite Hnodes, mapPredecessors_is_Some, mapSuccessors_is_Some.
    + intros k. rewrite !parent_mapSuccessors, parent_mapPredecessors.
      by rewrite Hnodes, parent_mapPredecessors, parent_mapSuccessors.
    + intros k. rewrite !succs_mapSuccessors by (rewrite Hnodes; alloc).
      rewrite succs_mapPredecessors.
      rewrite Hnodes, succs_mapPredecessors, succs_mapSuccessors by done.
      case_decide as Hk; [|done]. subst k. unfold emplace_back.
      apply swap_pop_last.
    + intros k. rewrite !preds_mapSuccessors.
      rewrite preds_mapPredecessors by (rewrite Hnodes; alloc).
      rewrite Hnodes, preds_mapPredecessors, preds_mapSuccessors by alloc.
      cbn [ONeighbor]. destruct (decide (k = B)) as [->|]; [|done].
      unfold emplace_back. rewrite HfP. apply swap_pop_last.
  - rewrite Hlabels. subst l. destruct lab; [|done]. cbn.
    apply delete_insert_id, not_elem_of_dom, is_fresh.
Qed.

(** *** Removing what is not there *)

(** X7: on a node whose successor vector is not empty,
    [removeSuccessor(S)] for a node [S] that is not among the
    successors, and [removeSuccessor] on [end()] or beyond, dereference
    a past-the-end iterator; so do the predecessor versions. *)
Theorem remove_absent_is_undefined s this n :
  nodes s !! this = Some n →
  (Successors n ≠ [] →
     (∀ S, hasSuccessor this S s = Returns false s →
           removeSuccessor this S s = Undefined)
     ∧ (∀ It, length (Successors n) ≤ It →
              removeSuccessor_it this It s = Undefined))
  ∧ (Predecessors n ≠ [] →
     (∀ P, hasPredecessor this P s = Returns false s →
           removePredecessor this P s = Undefined)
     ∧ (∀ It, length (Predecessors n) ≤ It →
              removePredecessor_it this It s = Undefined)).
Proof.
  intros Hn. split; intros Hne.
  - assert (∀ It, length (Successors n) ≤ It →
                  removeSuccessorImpl this It s = Undefined) as Himpl.
    { intros It HIt. unfold removeSuccessorImpl.
      rewrite bind_unfold, (load_eq _ _ _ Hn).
      rewrite bool_decide_eq_false_2 by done.
      rewrite bind_unfold. unfold deref.
      by rewrite lookup_ge_None_2. }
    split; [|done]. intros S HS.
    rewrite (hasSuccessor_eq _ _ _ _ Hn) in HS.
    unfold removeSuccessor. rewrite bind_unfold, (load_eq _ _ _ Hn).
    apply Himpl. injection HS as HS. apply negb_false_iff in HS.
    apply bool_decide_eq_true in HS. lia.
  - assert (∀ It, length (Predecessors n) ≤ It →
                  removePredecessorImpl this It s = Undefined) as Himpl.
    { intros It HIt. unfold removePredecessorImpl.
      rewrite bind_unfold, (load_eq _ _ _ Hn).
      rewrite bool_decide_eq_false_2 by done.
      rewrite bind_unfold. unfold deref.
      by rewrite lookup_ge_None_2. }
    split; [|done]. intros P HP.
    rewrite (hasPredecessor_eq _ _ _ _ Hn) in HP.
    unfold removePredecessor. rewrite bind_unfold, (load_eq _ _ _ Hn).
    apply Himpl. injection HP as HP. apply negb_false_iff in HP.
    apply bool_decide_eq_true in HP. lia.
Qed.

(** *** [disconnect] on a broken layout *)

Lemma removeSuccessorImpl_far_empty s this It n E m :
  nodes s !! this = Some n → Successors n !! It = Some E →
  nodes s !! ONeighbor E = Some m → Predecessors m = [] →
  removeSuccessorImpl this It s = Returns It s.
Proof.
  intros Hn HE Hm Hnil. unfold removeSuccessorImpl.
  rewrite bind_unfold, (load_eq _ _ _ Hn).
  case_bool_decide as Hnil'; [by rewrite Hnil' in HE|].
  rewrite bind_unfold. unfold deref. rewrite HE. cbn.
  rewrite bind_unfold, (load_eq _ _ _ Hm).
  by rewrite bool_decide_eq_true_2.
Qed.

(** X8: when the first successor record of [N] leads to a node whose
    predecessor vector is empty, the first loop of [N.disconnect()]
    makes no progress: [removeSuccessorImpl] hands the iterator back
    with the record still in place, so no amount of fuel lets
    [disconnect] return. *)
Theorem disconnect_never_returns_on_lost_view fuel s N n E m :
  nodes s !! N = Some n → Successors n !! 0 = Some E →
  nodes s !! ONeighbor E = Some m → Predecessors m = [] →
  disconnect fuel N s = OutOfFuel.
Proof.
  intros Hn HE Hm Hnil. unfold disconnect. rewrite bind_unfold.
  assert (disconnect_successors fuel N 0 s = OutOfFuel) as ->; [|done].
  induction fuel as [|fuel IH]; [done|]. simpl.
  rewrite bind_unfold, (load_eq _ _ _ Hn).
  rewrite bool_decide_eq_false_2.
  2: { apply lookup_lt_Some in HE. lia. }
  by rewrite bind_unfold, (removeSuccessorImpl_far_empty _ _ _ _ _ _ Hn HE Hm Hnil).
Qed.

(** *** Forward and inverse traversal *)

(** X9: in a well-formed store the two traversal directions agree:
    [B] is in the successor range of [A] exactly when [A] is in the
    predecessor range of [B], the edge views of the two ranges carry
    the same label pointer, and no range lists a neighbour twice. *)
Theorem traversal_directions_agree s A B nA nB :
  wf (nodes s) → nodes s !! A = Some nA → nodes s !! B = Some nB →
  ∃ cs ps ces pes,
    successors A s = Returns cs s ∧ predecessors B s = Returns ps s
    ∧ successor_edges A s = Returns ces s
    ∧ predecessor_edges B s = Returns pes s
    ∧ (B ∈ cs ↔ A ∈ ps)
    ∧ (∀ l, mkEdgeView B l ∈ ces ↔ mkEdgeView A l ∈ pes)
    ∧ NoDup cs ∧ NoDup ps
    ∧ edge_dest <$> ces = cs ∧ edge_dest <$> pes = ps.
Proof.
  intros Hwf HA HB.
  pose proof (wf_succs_NoDup _ Hwf A) as HndS.
  pose proof (wf_preds_NoDup _ Hwf B) as HndP.
  rewrite (succs_lookup _ _ _ HA) in HndS.
  rewrite (preds_lookup _ _ _ HB) in HndP.
  assert (∀ l, mkEdgeView B l ∈ toViewS <$> Successors nA
               ↔ mkEdgeView A l ∈ toViewP <$> Predecessors nB) as Hviews.
  { intros l. rewrite !list_elem_of_fmap.
    pose proof (wf_mirror _ Hwf A B l) as Hmir.
    rewrite (succs_lookup _ _ _ HA), (preds_lookup _ _ _ HB) in Hmir.
    split.
    - intros ([b l'] & [= <- <-] & He). exists (mkNonOwningEdge A l).
      split; [done|]. by apply Hmir.
    - intros ([a l'] & [= <- <-] & He). exists (mkOwningEdge B l).
      split; [done|]. by apply Hmir. }
  exists (ONeighbor <$> Successors nA), (VNeighbor <$> Predecessors nB),
    (toViewS <$> Successors nA), (toViewP <$> Predecessors nB).
  unfold successors, predecessors, successor_edges, predecessor_edges.
  rewrite !bind_unfold, (load_eq _ _ _ HA), (load_eq _ _ _ HB).
  do 4 (split; [done|]). split; [|split; [done|split; [done|split; [done|]]]].
  - rewrite !list_elem_of_fmap. split.
    + intros ([b l] & Hb & He). cbn in Hb. subst b.
      assert (mkEdgeView A l ∈ toViewP <$> Predecessors nB)
        as (v & Hv & Hin)%list_elem_of_fmap.
      { apply Hviews, list_elem_of_fmap. by exists (mkOwningEdge B l). }
      exists v. split; [|done]. by injection Hv.
    + intros ([a l] & Ha & Hv). cbn in Ha. subst a.
      assert (mkEdgeView B l ∈ toViewS <$> Successors nA)
        as (e & He & Hin)%list_elem_of_fmap.
      { apply Hviews, list_elem_of_fmap. by exists (mkNonOwningEdge A l). }
      exists e. split; [|done]. by injection He.
  - split; rewrite <-list_fmap_compose; by apply list_fmap_ext.
Qed.

(** *** The labels have one owner each *)

Lemma NoDup_fmap_elem_inj {X Y} (f : X → Y) (l : list X) x y :
  NoDup (f <$> l) → x ∈ l → y ∈ l → f x = f y → x = y.
Proof.
  intros Hnd [i Hi]%list_elem_of_lookup_1 [j Hj]%list_elem_of_lookup_1 Hf.
  assert (i = j) as ->; [|congruence].
  eapply NoDup_lookup; [exact Hnd| |].
  - by rewrite list_lookup_fmap, Hi.
  - rewrite list_lookup_fmap, Hj. cbn. by rewrite Hf.
Qed.

Lemma labels_owned_ext s s' :
  (∀ a, succs (nodes s') a = succs (nodes s) a) → labels s' = labels s →
  labels_owned s → labels_owned s'.
Proof.
  intros HS Hl [Hal Hown Huni]. split.
  - intros a e l. rewrite HS, Hl. apply Hal.
  - intros l. rewrite Hl. intros (a & e & He & Hel)%Hown.
    exists a, e. by rewrite HS.
  - intros a e a' e' l. rewrite !HS. apply Huni.
Qed.

Lemma labels_owned_edge_removed s s' A E :
  wf (nodes s) → labels_owned s →
  edge_removed A (ONeighbor E) (nodes s) (nodes s') →
  E ∈ succs (nodes s) A →
  labels s' = release (OLabel E) (labels s) →
  labels_owned s'.
Proof.
  intros Hwf [Hal Hown Huni] Hrem HE Hlab.
  assert (∀ a e, e ∈ succs (nodes s) a → e ∉ succs (nodes s') a →
                 a = A ∧ e = E) as Hgone.
  { intros a e He Hne.
    destruct (decide (a = A ∧ ONeighbor e = ONeighbor E)) as [[-> Hn]|Hn].
    - split; [done|].
      by eapply (NoDup_fmap_elem_inj ONeighbor), Hn; [apply (wf_succs_NoDup _ Hwf A)|..].
    - destruct Hne. by apply (er_succs _ _ _ _ Hrem). }
  assert (E ∉ succs (nodes s') A) as HEgone.
  { intros HE'. apply (er_succs _ _ _ _ Hrem) in HE'. tauto. }
  assert (∀ a e, e ∈ succs (nodes s') a → e ∈ succs (nodes s) a) as Hsub.
  { intros a e He. apply (er_succs _ _ _ _ Hrem) in He. tauto. }
  split.
  - intros a e l He Hel. rewrite Hlab. pose proof (Hsub _ _ He) as He'.
    destruct (OLabel E) as [lE|] eqn:HlE; cbn; [|by eapply Hal].
    rewrite lookup_delete_ne; [by eapply Hal|].
    intros <-. destruct (Huni A E a e lE) as [-> ->]; done.
  - intros l. rewrite Hlab. intros Hl.
    assert (is_Some (labels s !! l) ∧ OLabel E ≠ Some l) as [Hl' Hne].
    { destruct (OLabel E) as [lE|]; cbn in Hl; [|done].
      destruct (decide (lE = l)) as [->|Hne].
      - rewrite lookup_delete_eq in Hl. by destruct Hl.
      - rewrite lookup_delete_ne in Hl by done. split; [done|congruence]. }
    destruct (Hown l Hl') as (a & e & He & Hel). exists a, e. split; [|done].
    destruct (decide (e ∈ succs (nodes s') a)) as [|Hn]; [done|].
    destruct (Hgone _ _ He Hn) as [-> ->]. congruence.
  - intros a e a' e' l He He'. apply Huni; by apply Hsub.
Qed.

Lemma removeSuccessorImpl_owned s this It r s' :
  wf (nodes s) → labels_owned s →
  removeSuccessorImpl this It s = Returns r s' → labels_owned s'.
Proof.
  intros Hwf Hown.
  destruct (nodes s !! this) as [n|] eqn:Hn.
  2: { unfold removeSuccessorImpl. by rewrite bind_unfold, (load_dangling _ _ Hn). }
  destruct (Successors n !! It) as [E|] eqn:HE.
  - destruct (removeSuccessorImpl_spec s this It n E Hwf Hn HE)
      as (s1 & -> & Hrem & Hlab).
    intros [= <- <-]. eapply labels_owned_edge_removed; try done.
    rewrite (succs_lookup _ _ _ Hn). by eapply list_elem_of_lookup_2.
  - unfold removeSuccessorImpl. rewrite bind_unfold, (load_eq _ _ _ Hn).
    case_bool_decide as Hnil.
    + by intros [= <- <-].
    + rewrite bind_unfold. unfold deref. by rewrite HE.
Qed.

Lemma removePredecessorImpl_owned s this It r s' :
  wf (nodes s) → labels_owned s →
  removePredecessorImpl this It s = Returns r s' → labels_owned s'.
Proof.
  intros Hwf Hown.
  destruct (nodes s !! this) as [n|] eqn:Hn.
  2: { unfold removePredecessorImpl. by rewrite bind_unfold, (load_dangling _ _ Hn). }
  destruct (Predecessors n !! It) as [E|] eqn:HE.
  - destruct (removePredecessorImpl_spec s this It n E Hwf Hn HE)
      as (s1 & -> & Hrem & Hlab).
    intros [= <- <-].
    eapply (labels_owned_edge_removed _ _ _ (mkOwningEdge this (VLabel E)));
      try done.
    apply (wf_mirror _ Hwf). rewrite (preds_lookup _ _ _ Hn).
    apply list_elem_of_lookup_2 in HE. by destruct E.
  - unfold removePredecessorImpl. rewrite bind_unfold, (load_eq _ _ _ Hn).
    case_bool_decide as Hnil.
    + by intros [= <- <-].
    + rewrite bind_unfold. unfold deref. by rewrite HE.
Qed.

Lemma disconnect_successors_owned fuel : ∀ s this It s',
  wf (nodes s) → labels_owned s →
  disconnect_successors fuel this It s = Returns tt s' →
  wf (nodes s') ∧ labels_owned s'.
Proof.
  induction fuel as [|fuel IH]; intros s this It s' Hwf Hown; [done|]. simpl.
  rewrite bind_unfold. unfold load at 1.
  destruct (nodes s !! this) as [n|] eqn:Hn; [|done].
  case_bool_decide as Hend; [by intros [= <-]|].
  rewrite bind_unfold.
  destruct (removeSuccessorImpl this It s) as [It' s1| | |] eqn:Hrun; [|done..].
  apply IH.
  - by eapply removeSuccessorImpl_wf.
  - by eapply removeSuccessorImpl_owned.
Qed.

Lemma disconnect_predecessors_owned fuel : ∀ s this It s',
  wf (nodes s) → labels_owned s →
  disconnect_predecessors fuel this It s = Returns tt s' →
  wf (nodes s') ∧ labels_owned s'.
Proof.
  induction fuel as [|fuel IH]; intros s this It s' Hwf Hown; [done|]. simpl.
  rewrite bind_unfold. unfold load at 1.
  destruct (nodes s !! this) as [n|] eqn:Hn; [|done].
  case_bool_decide as Hend; [by intros [= <-]|].
  rewrite bind_unfold.
  destruct (removePredecessorImpl this It s) as [It' s1| | |] eqn:Hrun; [|done..].
  apply IH.
  - by eapply removePredecessorImpl_wf.
  - by eapply removePredecessorImpl_owned.
Qed.

Lemma disconnect_owned fuel s this r s' :
  wf (nodes s) → labels_owned s →
  disconnect fuel this s = Returns r s' → labels_owned s'.
Proof.
  intros Hwf Hown. unfold disconnect. rewrite bind_unfold.
  destruct (disconnect_successors fuel this 0 s) as [[] s1| | |] eqn:H1;
    [|done..].
  destruct (disconnect_successors_owned _ _ _ _ _ Hwf Hown H1) as [Hwf1 Hown1].
  rewrite bind_unfold.
  destruct (disconnect_predecessors fuel this 0 s1) as [[] s2| | |] eqn:H2;
    [|done..].
  destruct (disconnect_predecessors_owned _ _ _ _ _ Hwf1 Hown1 H2) as [_ Hown2].
  by intros [= <- <-].
Qed.

Lemma edge_added_owned (lab : bool) s s' A B (L : EdgeLabel) :
  let l : option nat := if lab then Some (fresh (dom (labels s))) else None in
  is_Some (nodes s !! A) → labels_owned s →
  nodes s'
  = mapPredecessors B (emplace_back (mkNonOwningEdge A l))
      (mapSuccessors A (emplace_back (mkOwningEdge B l)) (nodes s)) →
  labels s'
  = (if lab then <[fresh (dom (labels s)) := L]> (labels s) else labels s) →
  labels_owned s'.
Proof.
  intros l HA [Hal Hown Huni] Hnodes Hlab.
  assert (labels s !! fresh (dom (labels s)) = None) as Hfresh
    by apply not_elem_of_dom, is_fresh.
  assert (∀ a e, e ∈ succs (nodes s') a
                 ↔ e ∈ succs (nodes s) a ∨ (a = A ∧ e = mkOwningEdge B l)) as HS.
  { intros a e. rewrite Hnodes, succs_mapPredecessors, succs_mapSuccessors by done.
    unfold emplace_back. case_decide as Ha.
    - subst a. rewrite elem_of_app, list_elem_of_singleton. tauto.
    - intuition congruence. }
  assert (∀ a e p, e ∈ succs (nodes s) a → OLabel e = Some p →
                   mkOwningEdge B l ≠ e ∧ l ≠ Some p) as Hold.
  { intros a e p He Hp. specialize (Hal _ _ _ He Hp).
    assert (l ≠ Some p) as Hl.
    { subst l. destruct lab; [|done]. intros [= <-].
      rewrite Hfresh in Hal. by destruct Hal. }
    split; [|done]. intros <-. by cbn in Hp. }
  split.
  - intros a e p [He|[-> ->]]%HS Hp; rewrite Hlab.
    + specialize (Hal _ _ _ He Hp). destruct lab; [|done].
      apply lookup_insert_is_Some. destruct (decide (fresh (dom (labels s)) = p)); eauto.
    + cbn in Hp. subst l. destruct lab; [|done]. injection Hp as <-.
      rewrite lookup_insert_eq. eauto.
  - intros p. rewrite Hlab. intros Hp.
    assert (is_Some (labels s !! p) ∨ l = Some p) as [Hp'|Hp'].
    { subst l. destruct lab; [|by left].
      apply lookup_insert_is_Some in Hp as [->|[_ Hp]]; [by right|by left]. }
    + destruct (Hown p Hp') as (a & e & He & Hel). exists a, e.
      split; [|done]. apply HS. by left.
    + exists A, (mkOwningEdge B l). split; [|done]. apply HS. by right.
  - intros a e a' e' p [He|[-> ->]]%HS [He'|[-> ->]]%HS Hp Hp'.
    + by eapply Huni.
    + cbn in Hp'. by destruct (Hold _ _ _ He Hp) as [_ ?].
    + cbn in Hp. by destruct (Hold _ _ _ He' Hp') as [_ ?].
    + done.
Qed.

Lemma addNode_succs par s this G r s' :
  addNode par this G s = Returns r s' →
  (∀ a, succs (nodes s') a = succs (nodes s) a) ∧ labels s' = labels s.
Proof.
  unfold addNode. rewrite bind_unfold. unfold make_node.
  set (a := fresh (dom (nodes s))).
  assert (nodes s !! a = None) as Ha by (apply not_elem_of_dom, is_fresh).
  assert (∀ p (σ : gmap nat MutableEdgeNode) k,
            σ = nodes s →
            succs (<[a := mkNode p [] []]> σ) k = succs σ k) as Hins.
  { intros p σ k ->. unfold succs. rewrite lookup_insert.
    case_decide; [subst; by rewrite Ha|done]. }
  rewrite bind_unfold. destruct par.
  - unfold setParent. rewrite bind_unfold. unfold load at 1. cbn.
    rewrite lookup_insert_eq. cbn. intros [= <- <-]. cbn.
    rewrite insert_insert_eq. split; [|done]. intros k. by apply Hins.
  - cbn. intros [= <- <-]. cbn. split; [|done]. intros k. by apply Hins.
Qed.

Lemma removeNode_it_owned fuel s G It r s' :
  wf (nodes s) → labels_owned s →
  removeNode_it fuel G It s = Returns r s' → labels_owned s'.
Proof.
  intros Hwf Hown. unfold removeNode_it. rewrite bind_unfold. unfold deref.
  destruct (Nodes G !! It) as [p|]; [|done]. cbn.
  rewrite bind_unfold.
  destruct (disconnect fuel p s) as [r1 s1| | |] eqn:H1; [|done..].
  destruct (disconnect_Returns _ _ _ _ _ Hwf H1) as (Hwf1 & Hsh1 & HS & HP).
  pose proof (disconnect_owned _ _ _ _ _ Hwf Hown H1) as Hown1.
  rewrite bind_unfold. unfold delete_node. rewrite bind_unfold. unfold load at 1.
  destruct (nodes s1 !! p) as [n|] eqn:Hn; [|done].
  rewrite (succs_lookup _ _ _ Hn) in HS. rewrite HS. cbn.
  intros [= <- <-]. eapply labels_owned_ext; [| |exact Hown1]; [|done].
  intros a. cbn. unfold succs. rewrite lookup_delete.
  case_decide; [subst; by rewrite Hn|done].
Qed.

(** X10: in every store reachable through the public operations, the
    invariant holds and the labels have one owner each: a label
    pointer held by a successor record is allocated, an allocated
    label is held by a successor record, and by no second one. *)
Theorem reachable_labels_owned lab par s :
  reachable lab par s → wf (nodes s) ∧ labels_owned s.
Proof.
  intros Hreach. split; [by eapply reachable_wf|].
  induction Hreach as
    [ | this G r s s' Hr IH Hrun | this S EL r s s' Hr IH Hrun
    | this P EL r s s' Hr IH Hrun | this It r s s' Hr IH Hrun
    | this S r s s' Hr IH Hrun | this It r s s' Hr IH Hrun
    | this P r s s' Hr IH Hrun | fuel this r s s' Hr IH Hrun
    | fuel G It r s s' Hr IH Hrun ];
    try (pose proof (reachable_wf _ _ _ Hr) as Hwf).
  - split; cbn.
    + intros a e l He. by apply elem_of_nil in He.
    + intros l [? Hl]. by rewrite lookup_empty in Hl.
    + intros a e a' e' l He. by apply elem_of_nil in He.
  - apply addNode_succs in Hrun as [HS Hl]. by eapply labels_owned_ext.
  - apply addSuccessor_Returns in Hrun as (HA & HB & Hnew & _ & Hn & Hl).
    exact (edge_added_owned lab s s' this S EL HA IH Hn Hl).
  - apply addPredecessor_Returns in Hrun as (HA & HB & Hnew & _ & Hn & Hl).
    exact (edge_added_owned lab s s' P this EL HB IH Hn Hl).
  - by eapply removeSuccessorImpl_owned.
  - unfold removeSuccessor in Hrun. rewrite bind_unfold in Hrun.
    unfold load at 1 in Hrun.
    destruct (nodes s !! this) as [n|]; [|done].
    by eapply removeSuccessorImpl_owned.
  - by eapply removePredecessorImpl_owned.
  - unfold removePredecessor in Hrun. rewrite bind_unfold in Hrun.
    unfold load at 1 in Hrun.
    destruct (nodes s !! this) as [n|]; [|done].
    by eapply removePredecessorImpl_owned.
  - by eapply disconnect_owned.
  - by eapply removeNode_it_owned.
Qed.

End MutableEdgeMore.

(** ** The container *)

Section GenericGraphTheory.
Import MutableEdge.
Context {EdgeLabel : Type}.
Implicit Types (s : memory EdgeLabel) (σ : gmap nat MutableEdgeNode).
Implicit Types (n m : MutableEdgeNode) (G : GenericGraph).

Lemma findNode_end G p :
  findNode G p = length (Nodes G) ↔ p ∉ Nodes G.
Proof.
  unfold findNode. rewrite find_if_end. split.
  - intros H Hp. specialize (H p Hp). by apply bool_decide_eq_false in H.
  - intros H x Hx. apply bool_decide_eq_false. by intros ->.
Qed.

Lemma findNode_found G p :
  p ∈ Nodes G → Nodes G !! findNode G p = Some p.
Proof.
  intros Hp. destruct (find_if_found (λ N, bool_decide (N = p)) (Nodes G))
    as (x & Hx & Hxp).
  - fold (findNode G p). by rewrite findNode_end; intros ?.
  - apply bool_decide_eq_true in Hxp. by subst x.
Qed.

Lemma hasNode_true G p : hasNode G p = true ↔ p ∈ Nodes G.
Proof.
  unfold hasNode. rewrite negb_true_iff, bool_decide_eq_false, findNode_end.
  split; [apply dec_stable|by intros ? ?].
Qed.

Lemma addNode_appends_fresh_node_aux par this G s :
  ∃ a s',
    addNode par this G s
    = Returns (a, mkGraph (EntryNode G) (Nodes G ++ [a])) s'
    ∧ nodes s !! a = None
    ∧ nodes s' !! a = Some (mkNode (if par then Some this else None) [] [])
    ∧ (∀ k, k ≠ a → nodes s' !! k = nodes s !! k).
Proof.
  set (a := fresh (dom (nodes s))).
  assert (nodes s !! a = None) as Ha by (apply not_elem_of_dom, is_fresh).
  exists a. unfold addNode. rewrite bind_unfold. unfold make_node. fold a.
  rewrite bind_unfold. destruct par.
  - unfold setParent. rewrite bind_unfold. unfold load at 1. cbn.
    rewrite lookup_insert_eq. cbn. eexists. split; [done|]. cbn.
    rewrite insert_insert_eq, lookup_insert_eq.
    split; [done|]. split; [done|].
    intros k Hk. by rewrite lookup_insert_ne.
  - cbn. eexists. split; [done|]. cbn. rewrite lookup_insert_eq.
    split; [done|]. split; [done|].
    intros k Hk. by rewrite lookup_insert_ne.
Qed.


(** *** Removing a node *)

Lemma NoDup_delete_elem (l : list nat) i p :
  NoDup l → l !! i = Some p →
  NoDup (delete i l) ∧ ∀ a, a ∈ delete i l ↔ a ∈ l ∧ a ≠ p.
Proof.
  intros Hnd (l1 & l2 & -> & ->)%lookup_split.
  rewrite delete_middle.
  apply NoDup_app in Hnd as (H1 & H2 & H3). apply NoDup_cons in H3 as [H3 H4].
  split.
  - apply NoDup_app. split; [done|]. split; [|done].
    intros x Hx Hx'. apply (H2 x Hx). by right.
  - intros a. rewrite !elem_of_app, elem_of_cons. split.
    + intros [Ha|Ha].
      * split; [by left|]. intros ->. apply (H2 p Ha). by left.
      * split; [by right; right|]. by intros ->.
    + intros [[Ha|[->|Ha]] Hne]; [by left|done|by right].
Qed.

Lemma delete_node_eq s p n :
  nodes s !! p = Some n → Successors n = [] →
  delete_node p s = Returns tt (mkMemory (delete p (nodes s)) (labels s)).
Proof.
  intros Hn Hnil. unfold delete_node.
  rewrite bind_unfold, (load_eq _ _ _ Hn), Hnil. done.
Qed.

Lemma removeNode_it_spec fuel G s It p n :
  wf (nodes s) → Nodes G !! It = Some p → nodes s !! p = Some n →
  length (Successors n) < fuel → length (Predecessors n) < fuel →
  ∃ s1,
    removeNode_it fuel G It s
    = Returns (It, mkGraph (EntryNode G) (delete It (Nodes G)))
        (mkMemory (delete p (nodes s1)) (labels s1))
    ∧ wf (nodes s1) ∧ shrunk (nodes s) (nodes s1)
    ∧ succs (nodes s1) p = [] ∧ preds (nodes s1) p = [].
Proof.
  intros Hwf Hp Hn HlS HlP.
  destruct (disconnect_spec fuel s p Hwf) as (s1 & Hrun & Hwf1 & Hsh & HS & HP).
  { eauto. }
  { by rewrite (succs_lookup _ _ _ Hn). }
  { by rewrite (preds_lookup _ _ _ Hn). }
  exists s1. split; [|done].
  unfold removeNode_it. rewrite bind_unfold. unfold deref. rewrite Hp. cbn.
  rewrite bind_unfold, Hrun.
  destruct (proj2 (sh_allocated _ _ Hsh p)) as [n1 Hn1]; [eauto|].
  rewrite bind_unfold, (delete_node_eq _ _ n1); [done|done|].
  by rewrite <-(succs_lookup _ _ _ Hn1).
Qed.

Lemma graph_wf_dom G s :
  NoDup (Nodes G) → dom (nodes s) = (list_to_set (Nodes G) : gset nat) →
  wf (nodes s) → graph_wf G s.
Proof.
  intros Hnd Hdom Hwf. split; [done| |done].
  intros a. by rewrite <-elem_of_dom, Hdom, elem_of_list_to_set.
Qed.


(** X13: [removeNode] never touches the entry node.  Whenever it
    returns, the node under the iterator has been freed and
    [getEntryNode] gives what it gave before, also when that is the
    node just freed. *)
Theorem removeNode_keeps_entry_node fuel G It r G' s s' :
  removeNode_it fuel G It s = Returns (r, G') s' →
  ∃ p, Nodes G !! It = Some p
    ∧ nodes s' !! p = None
    ∧ getEntryNode G' = getEntryNode G
    ∧ Nodes G' = delete It (Nodes G)
    ∧ r = It.
Proof.
  unfold removeNode_it. rewrite bind_unfold. unfold deref.
  destruct (Nodes G !! It) as [p|]; [|done]. cbn.
  rewrite bind_unfold.
  destruct (disconnect fuel p s) as [r1 s1| | |]; [|done..].
  rewrite bind_unfold. unfold delete_node. rewrite bind_unfold. unfold load at 1.
  destruct (nodes s1 !! p) as [n|]; [|done].
  rewrite bind_unfold.
  destruct (destroy_all_eq (Successors n) s1) as [h ->].
  cbn. intros [= <- <- <-]. exists p. cbn.
  split; [done|]. split; [apply lookup_delete_eq|done].
Qed.

(** X14: [removeNode] for a pointer the container does not hold, and
    [removeNode] on [end()] or beyond, dereference a past-the-end
    iterator. *)
Theorem removeNode_absent_is_undefined fuel G s :
  (∀ p, hasNode G p = false → removeNode fuel G p s = Undefined)
  ∧ (∀ It, size G ≤ It → removeNode_it fuel G It s = Undefined).
Proof.
  assert (∀ It, size G ≤ It → removeNode_it fuel G It s = Undefined) as Hit.
  { intros It HIt. unfold removeNode_it. rewrite bind_unfold. unfold deref.
    by rewrite lookup_ge_None_2. }
  split; [|done]. intros p Hp. unfold removeNode. apply Hit.
  unfold hasNode in Hp. apply negb_false_iff, bool_decide_eq_true in Hp.
  unfold size. lia.
Qed.

(** *** The container owns the nodes *)

Lemma graph_reachable_reachable lab par G s :
  graph_reachable lab par G s → reachable lab par s.
Proof.
  induction 1; eauto using @reachable.
Qed.


End GenericGraphTheory.

(** ** More on BidirectionalNode *)

Section BidirectionalMore.
Import Bidirectional.
Context {EdgeLabel : Type}.
Implicit Types (s : gmap nat (@BidirectionalNode EdgeLabel)).
Implicit Types (n : @BidirectionalNode EdgeLabel).

(** X16: [A.addSuccessor(B, EL)] returns whenever both nodes are
    there, whether or not [A] already has an edge to [B]: one record
    for [B] goes to the end of [A]'s successors, one record for [A],
    with a copy of the label, to the end of [B]'s predecessors, and
    nothing else changes. *)
Theorem bi_addSuccessor_appends_one_each s A B (EL : EdgeLabel) nA nB :
  s !! A = Some nA → s !! B = Some nB →
  ∃ s' nA' nB',
    addSuccessor A B EL s = Returns tt s'
    ∧ s' !! A = Some nA' ∧ s' !! B = Some nB'
    ∧ Successors nA' = Successors nA ++ [mkEdge B EL]
    ∧ Predecessors nB' = Predecessors nB ++ [mkEdge A EL]
    ∧ (A ≠ B → Predecessors nA' = Predecessors nA
               ∧ Successors nB' = Successors nB)
    ∧ (∀ p, p ≠ A → p ≠ B → s' !! p = s !! p).
Proof.
  intros HA HB. unfold addSuccessor, Forward_addSuccessor.
  rewrite bind_unfold, (bi_updSuccessors_eq _ _ _ _ HA).
  destruct (decide (A = B)) as [->|Hne].
  - assert (nA = nB) as -> by congruence.
    erewrite bi_updPredecessors_eq; [|by rewrite lookup_insert_eq].
    eexists _, _, _. split; [done|]. rewrite !lookup_insert_eq.
    split; [done|]. split; [done|]. cbn. split; [done|]. split; [done|].
    split; [done|]. intros p Hp _. by rewrite !lookup_insert_ne.
  - erewrite bi_updPredecessors_eq; [|by rewrite lookup_insert_ne].
    eexists _, _, _. split; [done|].
    rewrite lookup_insert_ne, !lookup_insert_eq by done.
    split; [done|]. split; [done|]. cbn. split; [done|]. split; [done|].
    split; [done|]. intros p HpA HpB. by rewrite !lookup_insert_ne.
Qed.

(** X17: there is no one-call removal of an edge, but the two
    one-sided removals undo [addSuccessor]: after
    [A.addSuccessor(B, EL)], removing the last successor record of [A]
    and the last predecessor record of [B] gives back the store from
    before. *)
Theorem bi_add_remove_round_trip s A B (EL : EdgeLabel) nA nB s1 :
  s !! A = Some nA → s !! B = Some nB →
  addSuccessor A B EL s = Returns tt s1 →
  ∃ s2,
    removeSuccessor A (length (Successors nA)) s1
    = Returns (length (Successors nA)) s2
    ∧ removePredecessor B (length (Predecessors nB)) s2
      = Returns (length (Predecessors nB)) s.
Proof.
  intros HA HB. unfold addSuccessor, Forward_addSuccessor.
  rewrite bind_unfold, (bi_updSuccessors_eq _ _ _ _ HA).
  assert (∀ (l : list (@Edge EdgeLabel)) x, erase (length l) (l ++ [x]) = l)
    as Herase.
  { intros l x. unfold erase. by rewrite delete_middle, app_nil_r. }
  assert (∀ (l : list (@Edge EdgeLabel)) x,
            bool_decide (length l < length (l ++ [x])) = true) as Hlt.
  { intros l x. apply bool_decide_eq_true. rewrite length_app. cbn. lia. }
  destruct (decide (A = B)) as [->|Hne].
  - assert (nA = nB) as -> by congruence.
    erewrite bi_updPredecessors_eq; [|by rewrite lookup_insert_eq].
    intros [= <-]. cbn. rewrite insert_insert_eq.
    eexists. split.
    + unfold removeSuccessor. rewrite bind_unfold.
      erewrite bi_load_eq; [|by rewrite lookup_insert_eq].
      cbn. unfold emplace_back. rewrite Hlt.
      rewrite bind_unfold.
      erewrite bi_updSuccessors_eq; [|by rewrite lookup_insert_eq].
      cbn. rewrite Herase, insert_insert_eq. done.
    + unfold removePredecessor. rewrite bind_unfold.
      erewrite bi_load_eq; [|by rewrite lookup_insert_eq].
      cbn. unfold emplace_back. rewrite Hlt.
      rewrite bind_unfold.
      erewrite bi_updPredecessors_eq; [|by rewrite lookup_insert_eq].
      cbn. rewrite Herase, insert_insert_eq.
      rewrite insert_id; [done|]. by destruct nB.
  - erewrite bi_updPredecessors_eq; [|by rewrite lookup_insert_ne].
    intros [= <-]. cbn.
    eexists. split.
    + unfold removeSuccessor. rewrite bind_unfold.
      erewrite bi_load_eq;
        [|by rewrite lookup_insert_ne, lookup_insert_eq by done].
      cbn. unfold emplace_back. rewrite Hlt.
      rewrite bind_unfold.
      erewrite bi_updSuccessors_eq;
        [|by rewrite lookup_insert_ne, lookup_insert_eq by done].
      cbn. rewrite Herase. done.
    + unfold removePredecessor. rewrite bind_unfold.
      erewrite bi_load_eq;
        [|by rewrite lookup_insert_ne, lookup_insert_eq by done].
      cbn. unfold emplace_back. rewrite Hlt.
      rewrite bind_unfold.
      erewrite bi_updPredecessors_eq;
        [|by rewrite lookup_insert_ne, lookup_insert_eq by done].
      cbn. rewrite Herase. f_equal.
      apply map_eq. intros k.
      destruct (decide (k = B)) as [->|HkB];
        [rewrite lookup_insert_eq, HB; by destruct nB|].
      rewrite lookup_insert_ne by done.
      destruct (decide (k = A)) as [->|HkA].
      * rewrite lookup_insert_eq, HA. by destruct nA.
      * by rewrite !lookup_insert_ne by done.
Qed.

End BidirectionalMore.


(** ** The logger *)

Section LoggerTheory.
Import Debug.
Variable max_size : Z.
Implicit Types (g : globals) (L : Logger) (s : list ascii).

Local Open Scope Z_scope.

(** *** Indentation *)

(** X18: [unindent] never dies in its assertion: the difference it
    checks is an [unsigned] and so never negative.  Unindenting by
    more than the current level wraps the level around instead. *)
Theorem unindent_wraps_instead_of_aborting isEnabled Level g :
  0 ≤ IndentLevel g < UNSIGNED → 0 ≤ Level < UNSIGNED →
  ∃ g', unindent isEnabled Level g = Ok g'
    ∧ dbg g' = dbg g
    ∧ MaxLoggerNameLength g' = MaxLoggerNameLength g
    ∧ MaxLocationLength g' = MaxLocationLength g
    ∧ IndentLevel g'
      = (if isEnabled
         then if Level <=? IndentLevel g
              then IndentLevel g - Level
              else IndentLevel g - Level + UNSIGNED
         else IndentLevel g).
Proof.
  intros HI HL. unfold unindent. destruct isEnabled; [|by exists g].
  assert (0 ≤ (IndentLevel g - Level) `mod` UNSIGNED) as Hnn.
  { apply Z.mod_pos_bound. by unfold UNSIGNED. }
  rewrite (proj2 (Z.leb_le _ _) Hnn). cbn [negb].
  eexists. split; [done|]. cbn. do 3 (split; [done|]).
  destruct (Z.leb_spec Level (IndentLevel g)).
  - apply Z.mod_small. lia.
  - rewrite <-(Z.mod_add _ 1 UNSIGNED) by (by unfold UNSIGNED).
    apply Z.mod_small. lia.
Qed.

(** X19: [indent(Level)] followed by [unindent(Level)] gives the
    indentation level back, also when the sum wrapped around. *)
Theorem indent_unindent_round_trip isEnabled Level g :
  0 ≤ IndentLevel g < UNSIGNED →
  ∃ g1, indent isEnabled Level g = Ok g1
    ∧ unindent isEnabled Level g1 = Ok g.
Proof.
  intros HI. unfold indent, unindent. destruct isEnabled; [|by exists g].
  eexists. split; [done|]. cbn.
  assert (((IndentLevel g + Level) `mod` UNSIGNED - Level) `mod` UNSIGNED
          = IndentLevel g) as ->.
  { rewrite Zminus_mod_idemp_l. replace (IndentLevel g + Level - Level)
      with (IndentLevel g) by lia. by apply Z.mod_small. }
  rewrite (proj2 (Z.leb_le _ _) (proj1 HI)). cbn. by destruct g.
Qed.

(** *** Searching a string *)

Lemma find_if_lt {A} (P : A → bool) (l : list A) :
  find_if P l ≠ length l → (find_if P l < length l)%nat.
Proof. pose proof (find_if_le P l). lia. Qed.

Lemma find_if_before {A} (P : A → bool) (l : list A) x :
  x ∈ take (find_if P l) l → P x = false.
Proof.
  induction l as [|y l IH]; simpl; [by intros ?%elem_of_nil|].
  destruct (P y) eqn:Hy; simpl; [by intros ?%elem_of_nil|].
  intros [->|Hx]%elem_of_cons; [done|]. by apply IH.
Qed.

(** [rfind]: what is left after the last slash has no slash. *)
Lemma rfind_spec c s :
  match rfind c s with
  | Some k => s !! k = Some c ∧ c ∉ drop (k + 1) s
  | None => c ∉ s
  end.
Proof.
  unfold rfind. set (P := λ x, bool_decide (x = c)).
  case_bool_decide as Hfound.
  - rewrite <-(length_reverse s) in Hfound.
    rewrite find_if_end in Hfound. intros Hc.
    apply elem_of_reverse in Hc. specialize (Hfound _ Hc).
    by apply bool_decide_eq_false in Hfound.
  - rewrite <-(length_reverse s) in Hfound.
    pose proof (find_if_lt _ _ Hfound) as Hlt.
    destruct (find_if_found _ _ Hfound) as (x & Hx & HPx).
    apply bool_decide_eq_true in HPx. subst x.
    rewrite length_reverse in Hlt.
    apply reverse_lookup_Some in Hx as [Hx _].
    split.
    + rewrite <-Hx. f_equal. lia.
    + intros Hc.
      assert (c ∈ take (find_if P (reverse s)) (reverse s)) as Hin.
      { rewrite take_reverse, elem_of_reverse.
        replace (length s - find_if P (reverse s))%nat
          with (length s - 1 - find_if P (reverse s) + 1)%nat by lia.
        done. }
      apply find_if_before in Hin. by apply bool_decide_eq_false in Hin.
Qed.

Lemma lines_find_if s :
  let i := find_if (λ x, bool_decide (x = newline)) s in
  if bool_decide (i = length s) then lines s = [s]
  else lines s = take i s :: lines (drop (S i) s).
Proof.
  induction s as [|c s IH]; [done|]. cbn [find_if lines length]. cbn zeta in *.
  destruct (decide (c = newline)) as [->|Hc].
  - rewrite !(bool_decide_eq_true_2 (newline = newline)) by done.
    by rewrite bool_decide_eq_false_2 by done.
  - rewrite !(bool_decide_eq_false_2 (c = newline)) by done.
    destruct (decide (find_if (λ x, bool_decide (x = newline)) s = length s))
      as [Hend|Hend].
    + rewrite bool_decide_eq_true_2 in IH by done.
      rewrite bool_decide_eq_true_2 by lia. by rewrite IH.
    + rewrite bool_decide_eq_false_2 in IH by done.
      rewrite bool_decide_eq_false_2 by lia. by rewrite IH.
Qed.

Lemma find_lines s (Start : nat) :
  (Start ≤ length s)%nat →
  match find newline s Start with
  | None => lines (drop Start s) = [drop Start s]
  | Some e =>
      (Start ≤ e)%nat ∧ (e < length s)%nat
      ∧ lines (drop Start s)
        = take (e - Start) (drop Start s) :: lines (drop (S e) s)
  end.
Proof.
  intros HStart. unfold find.
  pose proof (lines_find_if (drop Start s)) as H. cbn zeta in H.
  pose proof (find_if_le (λ x, bool_decide (x = newline)) (drop Start s)) as Hle.
  rewrite length_drop in *.
  case_bool_decide as Hend; [done|].
  split; [lia|]. split; [lia|]. rewrite H, drop_drop.
  do 2 f_equal; [lia|]. f_equal. lia.
Qed.

(** *** [flush] *)

Lemma string_n_ok n c :
  0 ≤ n ≤ max_size → string_n max_size n c = Ok (replicate (Z.to_nat n) c).
Proof.
  intros [_ Hn]. unfold string_n. by rewrite (proj2 (Z.leb_le _ _) Hn).
Qed.

(** X20: with a location column of [MaxLocationLength] characters,
    [flush] dies in its assertion when ":" and the line number alone
    fill the column; otherwise it prints the file name without its
    directories, cut to the room left, then the line number, and pads
    with spaces so that these three together are exactly
    [MaxLocationLength] characters. *)
Theorem flush_location_fills_the_column LineInfo g :
  0 ≤ MaxLocationLength g < SIZE_T → MaxLocationLength g ≤ max_size →
  let Suffix := ":"%char :: decimal (Line LineInfo) in
  (MaxLocationLength g ≤ size Suffix →
     flush_location max_size LineInfo g = AssertFailed)
  ∧ (size Suffix < MaxLocationLength g →
     ∃ base Location Pad,
       flush_location max_size LineInfo g
       = Ok (["["%char] ++ Location ++ Suffix ++ ["]"; " "]%char ++ Pad)
       ∧ suffix base (File LineInfo) ∧ (slash ∉ base)
       ∧ (slash ∈ File LineInfo →
          suffix ("/"%char :: base) (File LineInfo))
       ∧ Location
         = take (Z.to_nat (MaxLocationLength g - size Suffix)) base
       ∧ Pad = replicate (length Pad) space
       ∧ size Location + size Suffix + size Pad = MaxLocationLength g).
Proof.
  intros HM Hmax Suffix. unfold flush_location. fold Suffix. split.
  - intros Hfull. by rewrite (proj2 (Z.ltb_ge _ _) Hfull).
  - intros Hroom. rewrite (proj2 (Z.ltb_lt _ _) Hroom). cbn [negb].
    assert (0 ≤ size Suffix) as HS0 by (unfold size; lia).
    rewrite (Z.mod_small (MaxLocationLength g - size Suffix)) by lia.
    set (base := match rfind slash (File LineInfo) with
                 | Some LastSlash => drop (LastSlash + 1) (File LineInfo)
                 | None => File LineInfo
                 end).
    set (Room := MaxLocationLength g - size Suffix).
    set (Location := if Room <? size base then take (Z.to_nat Room) base
                     else base).
    assert (Location = take (Z.to_nat Room) base) as HLoc.
    { subst Location. destruct (Z.ltb_spec Room (size base)); [done|].
      rewrite take_ge; [done|]. unfold size in *. lia. }
    assert (size Location ≤ Room) as HLen.
    { rewrite HLoc. unfold size. rewrite length_take. lia. }
    assert (0 ≤ size Location) as HL0 by (unfold size; lia).
    rewrite Z.mod_small by lia.
    rewrite string_n_ok by lia. cbn.
    exists base, Location, (replicate (Z.to_nat (Room - size Location)) space).
    split.
    { replace (Room - size Location)
        with (MaxLocationLength g - size Location - size Suffix)
        by (subst Room; lia).
      done. }
    pose proof (rfind_spec slash (File LineInfo)) as Hr.
    split; [|split; [|split; [|split; [done|split]]]].
    + subst base. destruct (rfind slash (File LineInfo)); [apply suffix_drop|done].
    + subst base. by destruct (rfind slash (File LineInfo)); [apply Hr|].
    + intros Hin. subst base.
      destruct (rfind slash (File LineInfo)) as [k|]; [|done].
      destruct Hr as [Hk _].
      exists (take k (File LineInfo)).
      replace (k + 1)%nat with (S k) by lia.
      symmetry. by apply take_drop_middle.
    + by rewrite length_replicate.
    + unfold size at 3. rewrite length_replicate. lia.
Qed.

Lemma substr_ok s Start Count :
  (Start ≤ length s)%nat →
  substr s Start Count
  = Ok (match Count with
        | Some n => take n (drop Start s)
        | None => drop Start s
        end).
Proof. intros H. unfold substr. by rewrite bool_decide_eq_false_2 by lia. Qed.

Lemma flush_lines_spec Data Pad fuel : ∀ End out,
  (End < length Data)%nat → (length Data - End ≤ fuel)%nat →
  flush_lines fuel Data Pad End out
  = Ok (out ++ concat ((λ ln, Pad ++ ln ++ [newline])
                        <$> lines (drop (S End) Data))).
Proof.
  induction fuel as [|fuel IH]; intros End out HEnd Hfuel; [lia|].
  cbn [flush_lines].
  pose proof (find_lines Data (End + 1)) as Hfind.
  replace (S End) with (End + 1)%nat by lia.
  rewrite substr_ok by lia.
  destruct (find newline Data (End + 1)) as [e|]; cbn.
  - destruct Hfind as (He1 & He2 & ->); [lia|].
    rewrite IH by lia. cbn. by rewrite <-!app_assoc.
  - rewrite Hfind by lia. cbn. by rewrite <-!app_assoc, app_nil_r.
Qed.


End LoggerTheory.

(** ** Instances of the further properties *)

Section MutableEdgeMoreWitnesses.
Import MutableEdge Examples.

Lemma addPredecessor_mirrored_witness :
  addPredecessor true 1 0 7 isolated2 = Returns (mkEdgeView 1 (Some 0)) linked2
  ∧ hasSuccessor 0 1 linked2 = Returns true linked2
  ∧ hasPredecessor 1 0 linked2 = Returns true linked2.
Proof.
  assert (addPredecessor true 1 0 7 isolated2
          = Returns (mkEdgeView 1 (Some 0)) linked2) as H
    by (vm_compute; reflexivity).
  split; [exact H|].
  destruct (addPredecessor_mirrored _ _ _ _ _ _ _ H) as (H1 & H2 & _).
  split; [exact H1|exact H2].
Defined.

Lemma addPredecessor_duplicate_aborts_witness :
  hasPredecessor 1 0 linked2 = Returns true linked2
  ∧ addPredecessor true 1 0 8 linked2
    = Aborts "Only one edge is allowed between two nodes." linked2.
Proof.
  assert (hasPredecessor 1 0 linked2 = Returns true linked2) as H
    by (vm_compute; reflexivity).
  split; [exact H|].
  exact (addPredecessor_duplicate_aborts true linked2 1 0 8 H).
Defined.

Lemma addPredecessor_is_addSuccessor_witness :
  wf (nodes isolated2)
  ∧ addPredecessor true 1 0 7 isolated2 = addSuccessor true 0 1 7 isolated2.
Proof.
  assert (wf (nodes isolated2)) as Hwf by compute_done.
  split; [exact Hwf|].
  exact (addPredecessor_is_addSuccessor true isolated2 1 0 7 Hwf).
Defined.

Lemma removePredecessor_removes_both_halves_witness :
  wf (nodes linked2)
  ∧ hasPredecessor 1 0 linked2 = Returns true linked2
  ∧ ∃ It s' l, removePredecessor 1 0 linked2 = Returns It s'
      ∧ hasPredecessor 1 0 s' = Returns false s'
      ∧ hasSuccessor 0 1 s' = Returns false s'
      ∧ mkOwningEdge 1 l ∈ succs (nodes linked2) 0
      ∧ labels s' = release l (labels linked2)
      ∧ wf (nodes s').
Proof.
  assert (wf (nodes linked2)) as Hwf by compute_done.
  assert (hasPredecessor 1 0 linked2 = Returns true linked2) as H
    by (vm_compute; reflexivity).
  split; [exact Hwf|]. split; [exact H|].
  exact (removePredecessor_removes_both_halves linked2 1 0 Hwf H).
Defined.

Lemma removeSuccessor_swaps_last_in_witness :
  wf (nodes fan3)
  ∧ ∃ s', removeSuccessor_it 0 0 fan3 = Returns 0 s'
      ∧ succs (nodes s') 0 = [mkOwningEdge 3 (Some 2); mkOwningEdge 2 (Some 1)]
      ∧ labels s' = release (Some 0) (labels fan3).
Proof.
  assert (wf (nodes fan3)) as Hwf by compute_done.
  split; [exact Hwf|].
  destruct (removeSuccessor_swaps_last_in fan3 0 0
              (mkNode None [mkOwningEdge 1 (Some 0); mkOwningEdge 2 (Some 1);
                            mkOwningEdge 3 (Some 2)] [])
              (mkOwningEdge 1 (Some 0)) (mkOwningEdge 3 (Some 2))
              Hwf eq_refl eq_refl eq_refl)
    as (s' & m & j & V & Z & H1 & H2 & _ & _ & _ & _ & _ & _ & _ & H3).
  exists s'. split; [exact H1|]. split; [exact H2|exact H3].
Defined.

Lemma addSuccessor_removeSuccessor_round_trip_witness :
  wf (nodes isolated2)
  ∧ addSuccessor true 0 1 7 isolated2 = Returns (mkEdgeView 1 (Some 0)) linked2
  ∧ removeSuccessor 0 1 linked2 = Returns 0 isolated2.
Proof.
  assert (wf (nodes isolated2)) as Hwf by compute_done.
  assert (addSuccessor true 0 1 7 isolated2
          = Returns (mkEdgeView 1 (Some 0)) linked2) as H
    by (vm_compute; reflexivity).
  split; [exact Hwf|]. split; [exact H|].
  exact (addSuccessor_removeSuccessor_round_trip true isolated2 0 1 7
           (mkEdgeView 1 (Some 0)) linked2 Hwf H).
Defined.

Lemma remove_absent_is_undefined_witness :
  removeSuccessor 0 0 linked2 = Undefined
  ∧ removeSuccessor_it 0 1 linked2 = Undefined
  ∧ removePredecessor 1 1 linked2 = Undefined
  ∧ removePredecessor_it 1 1 linked2 = Undefined.
Proof.
  destruct (remove_absent_is_undefined linked2 0
              (mkNode None [mkOwningEdge 1 (Some 0)] []) eq_refl) as [HS _].
  destruct (remove_absent_is_undefined linked2 1
              (mkNode None [] [mkNonOwningEdge 0 (Some 0)]) eq_refl) as [_ HP].
  destruct HS as [H1 H2]; [discriminate|].
  destruct HP as [H3 H4]; [discriminate|].
  split; [apply H1; vm_compute; reflexivity|].
  split; [apply H2; cbn; lia|].
  split; [apply H3; vm_compute; reflexivity|].
  apply H4; cbn; lia.
Defined.

Lemma disconnect_never_returns_on_lost_view_witness :
  disconnect 100 0 lost_view = OutOfFuel.
Proof.
  exact (disconnect_never_returns_on_lost_view 100 lost_view 0
           (mkNode None [mkOwningEdge 1 (Some 0)] [])
           (mkOwningEdge 1 (Some 0)) (mkNode None [] [])
           eq_refl eq_refl eq_refl eq_refl).
Defined.

Lemma traversal_directions_agree_witness :
  wf (nodes chain3)
  ∧ ∃ cs ps, successors 1 chain3 = Returns cs chain3
      ∧ predecessors 2 chain3 = Returns ps chain3
      ∧ (2 ∈ cs ↔ 1 ∈ ps) ∧ NoDup cs ∧ NoDup ps.
Proof.
  assert (wf (nodes chain3)) as Hwf by compute_done.
  split; [exact Hwf|].
  destruct (traversal_directions_agree chain3 1 2
              (mkNode None [mkOwningEdge 2 (Some 1)] [mkNonOwningEdge 0 (Some 0)])
              (mkNode None [] [mkNonOwningEdge 1 (Some 1)])
              Hwf eq_refl eq_refl)
    as (cs & ps & ces & pes & H1 & H2 & _ & _ & H3 & _ & H4 & H5 & _).
  exists cs, ps. split; [exact H1|]. split; [exact H2|]. split; [exact H3|].
  split; [exact H4|exact H5].
Defined.

Lemma reachable_labels_owned_witness :
  wf (nodes linked2) ∧ labels_owned linked2.
Proof.
  apply (reachable_labels_owned true false).
  apply (reach_addSuccessor true false 0 1 7 (mkEdgeView 1 (Some 0)) isolated2);
    [|vm_compute; reflexivity].
  apply (reach_addNode true false 0 (mkGraph None [0]) (1, mkGraph None [0; 1])
           (mkMemory (<[0 := mkNode None [] []]> ∅) ∅));
    [|vm_compute; reflexivity].
  apply (reach_addNode true false 0 newGraph (0, mkGraph None [0])
           (mkMemory ∅ ∅));
    [apply reach_new|vm_compute; reflexivity].
Defined.



Lemma removeNode_keeps_entry_node_witness :
  removeNode_it 2 chain3_graph 1 chain3
  = Returns (1, mkGraph (Some 1) [0; 2]) ends_only
  ∧ nodes ends_only !! 1 = None
  ∧ getEntryNode (mkGraph (Some 1) [0; 2]) = getEntryNode chain3_graph.
Proof.
  assert (removeNode_it 2 chain3_graph 1 chain3
          = Returns (1, mkGraph (Some 1) [0; 2]) ends_only) as H
    by (vm_compute; reflexivity).
  split; [exact H|].
  destruct (removeNode_keeps_entry_node _ _ _ _ _ _ _ H)
    as (p & Hp & Hfree & He & _).
  cbn in Hp. injection Hp as <-.
  split; [exact Hfree|exact He].
Defined.

Lemma removeNode_absent_is_undefined_witness :
  removeNode 2 chain3_graph 7 chain3 = Undefined
  ∧ removeNode_it 2 chain3_graph 3 chain3 = Undefined.
Proof.
  destruct (removeNode_absent_is_undefined 2 chain3_graph chain3) as [H1 H2].
  split; [apply H1; vm_compute; reflexivity|apply H2; cbn; lia].
Defined.


End MutableEdgeMoreWitnesses.

Section BidirectionalMoreWitnesses.
Import Bidirectional Examples.

Lemma bi_addSuccessor_appends_one_each_witness :
  ∃ s' nA' nB',
    addSuccessor 0 1 8 bi_linked2 = Returns tt s'
    ∧ s' !! 0 = Some nA' ∧ s' !! 1 = Some nB'
    ∧ Successors nA' = [mkEdge 1 7; mkEdge 1 8]
    ∧ Predecessors nB' = [mkEdge 0 7; mkEdge 0 8].
Proof.
  destruct (bi_addSuccessor_appends_one_each bi_linked2 0 1 8
              (mkNode [mkEdge 1 7] []) (mkNode [] [mkEdge 0 7])
              eq_refl eq_refl)
    as (s' & nA' & nB' & H1 & H2 & H3 & H4 & H5 & _).
  exists s', nA', nB'. split; [exact H1|]. split; [exact H2|].
  split; [exact H3|]. split; [exact H4|exact H5].
Defined.

Lemma bi_add_remove_round_trip_witness :
  addSuccessor 0 1 7 bi_isolated2 = Returns tt bi_linked2
  ∧ ∃ s2, removeSuccessor 0 0 bi_linked2 = Returns 0 s2
      ∧ removePredecessor 1 0 s2 = Returns 0 bi_isolated2.
Proof.
  assert (addSuccessor 0 1 7 bi_isolated2 = Returns tt bi_linked2) as H
    by (vm_compute; reflexivity).
  split; [exact H|].
  exact (bi_add_remove_round_trip bi_isolated2 0 1 7
           (mkNode [] []) (mkNode [] []) bi_linked2 eq_refl eq_refl H).
Defined.

End BidirectionalMoreWitnesses.

Section LoggerWitnesses.
Import Debug Examples.
Local Open Scope Z_scope.

Lemma unindent_wraps_instead_of_aborting_witness :
  ∃ g', unindent true 3 with_location = Ok g'
    ∧ IndentLevel g' = UNSIGNED - 2.
Proof.
  destruct (unindent_wraps_instead_of_aborting true 3 with_location)
    as (g' & H1 & _ & _ & _ & H2).
  - compute_done.
  - compute_done.
  - exists g'. split; [exact H1|exact H2].
Defined.

Lemma indent_unindent_round_trip_witness :
  ∃ g1, indent true 4294967295 with_location = Ok g1
    ∧ unindent true 4294967295 g1 = Ok with_location.
Proof.
  apply indent_unindent_round_trip. compute_done.
Defined.

Lemma flush_location_fills_the_column_witness :
  flush_location (2 ^ 62) log_site (mkGlobals [] 1 8 3) = AssertFailed
  ∧ ∃ base Location Pad,
      flush_location (2 ^ 62) log_site with_location
      = Ok (["["%char] ++ Location ++ (":"%char :: decimal 42)
            ++ ["]"; " "]%char ++ Pad)
      ∧ Location = take 9 base
      ∧ size Location + 3 + size Pad = 12.
Proof.
  split.
  - refine (proj1 (flush_location_fills_the_column (2 ^ 62) log_site
                     (mkGlobals [] 1 8 3) _ _) _); compute_done.
  - destruct (proj2 (flush_location_fills_the_column (2 ^ 62) log_site
                       with_location ltac:(compute_done) ltac:(compute_done))
                ltac:(compute_done))
      as (base & Location & Pad & H1 & _ & _ & _ & H2 & _ & H3).
    exists base, Location, Pad. split; [exact H1|]. split; [exact H2|exact H3].
Defined.


End LoggerWitnesses.
